(** * Topic explorer: navigation history, fallback art, interactive text

    A shallow embedding of the application's pure logic:
    - the navigation callbacks of [App] ([changeTopic], [handlePrevious],
      [handleNext], [handleRandom]) and [createFallbackArt];
    - the text renderer of [ContentDisplay] ([renderInteractiveWords],
      [InteractiveContent]);
    - the response check of [getStructuredAnswer];
    - the component [ContentDisplay] and the updater [handleLinkUsed];
    - [generateAsciiArt], with the pattern that removes a code fence;
    - the effect of [App] that fetches the answer and the art, as the
      callbacks that run when the topic changes and when a request
      settles, and the conditions that guard the blocks of the page.

    JavaScript strings are sequences of UTF-16 code units; numbers that the
    code uses as indices or lengths are integers ([Z]), with [-1] where the
    code has it. *)

From Stdlib Require Import ZArith NArith QArith String Ascii List Lia.
From Stdlib Require Import Sorting.Sorted Sorting.Permutation DecimalString.
From stdpp Require Import base list gmap strings.

Open Scope Z_scope.

(** ** The host language's strings and arrays *)

(** A string value: its UTF-16 code units. *)
Abbreviation jsstring := (list N).

(** String literal of the source, for text in the Basic Latin range. *)
Definition js (s : string) : jsstring :=
  map N_of_ascii (list_ascii_of_string s).

(** [s.length], [a.length]. *)
Definition jslength {A} (l : list A) : Z := Z.of_nat (length l).

(** Truthiness of a string: [if (s)], [s && ...], [s ? a : b]. *)
Definition truthy (s : jsstring) : bool :=
  match s with [] => false | _ => true end.

(** [a === b] on strings. *)
Definition streq (a b : jsstring) : bool := bool_decide (a = b).

(** WhiteSpace and LineTerminator code points, the set that both
    [String.prototype.trim] and the regular expression class [\s] use. *)
Definition isWhiteSpace (c : N) : bool :=
  ((9 <=? c) && (c <=? 13) || (c =? 32) || (c =? 160) || (c =? 5760)
   || (8192 <=? c) && (c <=? 8202) || (c =? 8232) || (c =? 8233)
   || (c =? 8239) || (c =? 8287) || (c =? 12288) || (c =? 65279))%N.

Fixpoint trimStart (s : jsstring) : jsstring :=
  match s with
  | c :: s' => if isWhiteSpace c then trimStart s' else s
  | [] => []
  end.

Definition trimEnd (s : jsstring) : jsstring :=
  rev (trimStart (rev s)).

(** [s.trim()]. *)
Definition trim (s : jsstring) : jsstring := trimEnd (trimStart s).

(** [s.substring(start, end)]: both arguments are clamped to [0, length]
    and swapped when out of order. *)
Definition substring (s : jsstring) (start end_ : Z) : jsstring :=
  let len := jslength s in
  let a := Z.min (Z.max start 0) len in
  let b := Z.min (Z.max end_ 0) len in
  let from := Z.min a b in
  let to := Z.max a b in
  take (Z.to_nat (to - from)) (drop (Z.to_nat from) s).

(** [s.substring(start)]. *)
Definition substringFrom (s : jsstring) (start : Z) : jsstring :=
  substring s start (jslength s).

(** [l.slice(start, end)], on arrays and on strings: a negative argument
    counts from the end. *)
Definition slice {A} (l : list A) (start end_ : Z) : list A :=
  let len := jslength l in
  let k := if start <? 0 then Z.max (len + start) 0 else Z.min start len in
  let final := if end_ <? 0 then Z.max (len + end_) 0 else Z.min end_ len in
  take (Z.to_nat (final - k)) (drop (Z.to_nat k) l).

(** [a[i]]: [None] is [undefined], the value of an index out of range. *)
Definition index {A} (l : list A) (i : Z) : option A :=
  if i <? 0 then None else l !! Z.to_nat i.

(** [t] starts [s]. *)
Fixpoint isPrefix (t s : jsstring) : bool :=
  match t, s with
  | [], _ => true
  | _ :: _, [] => false
  | a :: t', b :: s' => (a =? b)%N && isPrefix t' s'
  end.

Fixpoint indexOfFrom (s t : jsstring) (i : Z) : Z :=
  if isPrefix t s then i
  else match s with
       | [] => -1
       | _ :: s' => indexOfFrom s' t (i + 1)
       end.

(** [s.indexOf(t)]: the least position where [t] occurs, or [-1]. *)
Definition indexOf (s t : jsstring) : Z := indexOfFrom s t 0.

(** [c.repeat(n)] for a one-unit string [c]. *)
Definition repeatUnit (c : N) (n : Z) : jsstring := replicate (Z.to_nat n) c.

(** Lower case of a Basic Latin code unit. *)
Definition lowerAscii (c : N) : N :=
  if ((65 <=? c) && (c <=? 90))%N then (c + 32)%N else c.

(** [toLowerCase] restricted to Basic Latin text: every other code unit is
    left as it is.  The theorems below are stated for an arbitrary
    [toLowerCase]; this one instantiates them on concrete inputs. *)
Definition asciiToLowerCase (s : jsstring) : jsstring := map lowerAscii s.

Definition isAscii (c : N) : Prop := (c < 128)%N.

(** What a call can throw: the engine's own errors, and [new Error(message)]. *)
Inductive exn :=
| TypeError
| SyntaxError
| Error (message : jsstring).

Inductive result (A : Type) :=
| Ok (a : A)
| Throw (e : exn).
Arguments Ok {A} a.
Arguments Throw {A} e.

(** ** App: navigation state *)

(** The three state cells of [App] that navigation reads and writes.
    [currentTopic] is [None] when it holds [undefined]. *)
Record NavState := mkNav {
  history : list jsstring;
  historyIndex : Z;
  currentTopic : option jsstring
}.

(** [useState([])], [useState(-1)], [useState('')]. *)
Definition initialNav : NavState := mkNav [] (-1) (Some []).

Section Navigation.

(** [String.prototype.toLowerCase] of the host. *)
Variable toLowerCase : jsstring -> jsstring.

(** [changeTopic]: reading [currentTopic.toLowerCase()] on [undefined]
    throws; the [&&] does not evaluate it when the trimmed topic is
    empty. *)
Definition changeTopic (st : NavState) (newTopic : jsstring) : result NavState :=
  let trimmedTopic := trim newTopic in
  if truthy trimmedTopic then
    match currentTopic st with
    | None => Throw TypeError
    | Some cur =>
        if negb (streq (toLowerCase trimmedTopic) (toLowerCase cur)) then
          let newHistory := slice (history st) 0 (historyIndex st + 1) ++ [trimmedTopic] in
          Ok (mkNav newHistory (jslength newHistory - 1) (Some trimmedTopic))
        else Ok st
    end
  else Ok st.

Definition handlePrevious (st : NavState) : NavState :=
  if 0 <? historyIndex st then
    let newIndex := historyIndex st - 1 in
    mkNav (history st) newIndex (index (history st) newIndex)
  else st.

Definition handleNext (st : NavState) : NavState :=
  if historyIndex st <? jslength (history st) - 1 then
    let newIndex := historyIndex st + 1 in
    mkNav (history st) newIndex (index (history st) newIndex)
  else st.

(** [handleSearch] only forwards to [changeTopic]. *)
Definition handleSearch (st : NavState) (topic : jsstring) : result NavState :=
  changeTopic st topic.

(** A user action on the navigation store. *)
Inductive action :=
| Push (topic : jsstring)
| Back
| Forward.

Definition step (st : NavState) (a : action) : result NavState :=
  match a with
  | Push topic => changeTopic st topic
  | Back => Ok (handlePrevious st)
  | Forward => Ok (handleNext st)
  end.

(** Actions in sequence, each on the state the previous one left. *)
Fixpoint run (st : NavState) (acts : list action) : result NavState :=
  match acts with
  | [] => Ok st
  | a :: acts' =>
      match step st a with
      | Ok st' => run st' acts'
      | Throw e => Throw e
      end
  end.

Definition isPush (a : action) : Prop :=
  match a with Push _ => True | _ => False end.

(** The cursor is within the history, and the current topic is the entry
    under the cursor (the empty string while nothing was visited). *)
Definition navInv (st : NavState) : Prop :=
  -1 <= historyIndex st <= jslength (history st) - 1 /\
  currentTopic st =
    (if historyIndex st <? 0 then Some [] else index (history st) (historyIndex st)).

End Navigation.

(** ** App: fallback art *)

Record AsciiArtData := mkArt {
  art : jsstring;
  text : option jsstring
}.

(** Line feed, and the box-drawing code units of the template literals. *)
Definition LF : N := 10%N.
Definition boxHorizontal : N := 0x2500%N.
Definition boxVertical : N := 0x2502%N.
Definition boxTopLeft : N := 0x250C%N.
Definition boxTopRight : N := 0x2510%N.
Definition boxBottomLeft : N := 0x2514%N.
Definition boxBottomRight : N := 0x2518%N.

Definition displayableTopic (topic : jsstring) : jsstring :=
  if 20 <? jslength topic then substring topic 0 17 ++ js "..." else topic.

Definition paddedTopic (topic : jsstring) : jsstring :=
  js " " ++ displayableTopic topic ++ js " ".

Definition topBorder (topic : jsstring) : jsstring :=
  [boxTopLeft] ++ repeatUnit boxHorizontal (jslength (paddedTopic topic)) ++ [boxTopRight].

Definition middle (topic : jsstring) : jsstring :=
  [boxVertical] ++ paddedTopic topic ++ [boxVertical].

Definition bottomBorder (topic : jsstring) : jsstring :=
  [boxBottomLeft] ++ repeatUnit boxHorizontal (jslength (paddedTopic topic)) ++ [boxBottomRight].

Definition createFallbackArt (topic : jsstring) : AsciiArtData :=
  mkArt (topBorder topic ++ [LF] ++ middle topic ++ [LF] ++ bottomBorder topic) None.

(** The lines of a text: its pieces between line feeds. *)
Fixpoint linesFrom (cur : jsstring) (s : jsstring) : list jsstring :=
  match s with
  | [] => [cur]
  | c :: s' => if (c =? LF)%N then cur :: linesFrom [] s' else linesFrom (cur ++ [c]) s'
  end.

Definition lines (s : jsstring) : list jsstring := linesFrom [] s.

(** ** App: the random button *)

Definition PREDEFINED_WORDS : list jsstring := map js [
  (* List 1 *)
  "Balance"; "Harmony"; "Discord"; "Unity"; "Fragmentation"; "Clarity"; "Ambiguity";
  "Presence"; "Absence"; "Creation"; "Destruction"; "Light"; "Shadow"; "Beginning";
  "Ending"; "Rising"; "Falling"; "Connection"; "Isolation"; "Hope"; "Despair";
  (* Complex phrases from List 1 *)
  "Order and chaos"; "Light and shadow"; "Sound and silence"; "Form and formlessness";
  "Being and nonbeing"; "Presence and absence"; "Motion and stillness";
  "Unity and multiplicity"; "Finite and infinite"; "Sacred and profane";
  "Memory and forgetting"; "Question and answer"; "Search and discovery";
  "Journey and destination"; "Dream and reality"; "Time and eternity"; "Self and other";
  "Known and unknown"; "Spoken and unspoken"; "Visible and invisible";
  (* List 2 *)
  "Zigzag"; "Waves"; "Spiral"; "Bounce"; "Slant"; "Drip"; "Stretch"; "Squeeze"; "Float";
  "Fall"; "Spin"; "Melt"; "Rise"; "Twist"; "Explode"; "Stack"; "Mirror"; "Echo"; "Vibrate";
  (* List 3 *)
  "Gravity"; "Friction"; "Momentum"; "Inertia"; "Turbulence"; "Pressure"; "Tension";
  "Oscillate"; "Fractal"; "Quantum"; "Entropy"; "Vortex"; "Resonance"; "Equilibrium";
  "Centrifuge"; "Elastic"; "Viscous"; "Refract"; "Diffuse"; "Cascade"; "Levitate";
  "Magnetize"; "Polarize"; "Accelerate"; "Compress"; "Undulate";
  (* List 4 *)
  "Liminal"; "Ephemeral"; "Paradox"; "Zeitgeist"; "Metamorphosis"; "Synesthesia";
  "Recursion"; "Emergence"; "Dialectic"; "Apophenia"; "Limbo"; "Flux"; "Sublime";
  "Uncanny"; "Palimpsest"; "Chimera"; "Void"; "Transcend"; "Ineffable"; "Qualia";
  "Gestalt"; "Simulacra"; "Abyssal";
  (* List 5 *)
  "Existential"; "Nihilism"; "Solipsism"; "Phenomenology"; "Hermeneutics";
  "Deconstruction"; "Postmodern"; "Absurdism"; "Catharsis"; "Epiphany"; "Melancholy";
  "Nostalgia"; "Longing"; "Reverie"; "Pathos"; "Ethos"; "Logos"; "Mythos"; "Anamnesis";
  "Intertextuality"; "Metafiction"; "Stream"; "Lacuna"; "Caesura"; "Enjambment"
]%string.

(** [[...new Set(words)]]: the words in the order of their first
    occurrence. *)
Fixpoint spreadSet (seen : gset jsstring) (words : list jsstring) : list jsstring :=
  match words with
  | [] => []
  | w :: words' =>
      if bool_decide (w ∈ seen) then spreadSet seen words'
      else w :: spreadSet ({[w]} ∪ seen) words'
  end.

Definition UNIQUE_WORDS : list jsstring := spreadSet ∅ PREDEFINED_WORDS.

(** [a.findIndex(p)]: the least index whose element satisfies [p], or [-1]. *)
Fixpoint findIndexFrom {A} (p : A -> bool) (l : list A) (i : Z) : Z :=
  match l with
  | [] => -1
  | x :: l' => if p x then i else findIndexFrom p l' (i + 1)
  end.

Definition findIndex {A} (p : A -> bool) (l : list A) : Z := findIndexFrom p l 0.

Record Link := mkLink {
  url : jsstring;
  title : jsstring
}.

(** The display cells of [App] that [handleRandom] resets. *)
Record Display := mkDisplay {
  explanation : jsstring;
  suggestion : jsstring;
  links : list Link;
  isLoading : bool;
  error : option jsstring;
  asciiArt : option AsciiArtData
}.

Record AppState := mkApp {
  nav : NavState;
  display : Display
}.

Section Random.

Variable toLowerCase : jsstring -> jsstring.

(** [handleRandom]; [pick] is the value of
    [Math.floor(Math.random() * UNIQUE_WORDS.length)].  Calling a string
    method on [undefined] throws. *)
Definition handleRandom (st : AppState) (pick : Z) : result AppState :=
  let cleared := mkDisplay [] [] [] true None None in
  match index UNIQUE_WORDS pick, currentTopic (nav st) with
  | Some randomWord, Some cur =>
      let chosen :=
        if streq (toLowerCase randomWord) (toLowerCase cur) then
          let currentIndex :=
            findIndex (fun w => streq (toLowerCase w) (toLowerCase randomWord)) UNIQUE_WORDS in
          let nextIndex := Z.rem (currentIndex + 1) (jslength UNIQUE_WORDS) in
          index UNIQUE_WORDS nextIndex
        else Some randomWord in
      match chosen with
      | Some word =>
          match changeTopic toLowerCase (nav st) word with
          | Ok nav' => Ok (mkApp nav' cleared)
          | Throw e => Throw e
          end
      | None => Throw TypeError
      end
  | _, _ => Throw TypeError
  end.

End Random.

(** ** ContentDisplay: the interactive text renderer *)

Definition STOP_WORDS : gset jsstring := list_to_set (map js [
  "a"; "about"; "an"; "and"; "are"; "as"; "at"; "be"; "by"; "for"; "from";
  "how"; "i"; "in"; "is"; "it"; "of"; "on"; "or"; "that"; "the"; "this";
  "to"; "was"; "what"; "when"; "where"; "who"; "will"; "with"
]%string).

(** The characters of the class [[.,!?;:]]. *)
Definition isPunctuation (c : N) : bool :=
  ((c =? 46) || (c =? 44) || (c =? 33) || (c =? 63) || (c =? 59) || (c =? 58))%N.

(** [part.match(/[.,!?;:]+$/)]: the match is tried at each position from
    the left, and succeeds where a non-empty run of the class reaches the
    end of the string.  The result is the matched text, or [None] for
    [null]. *)
Fixpoint matchTrailingPunctuation (s : jsstring) : option jsstring :=
  match s with
  | [] => None
  | _ :: s' => if forallb isPunctuation s then Some s else matchTrailingPunctuation s'
  end.

(** [text.split(/(\s+)/)], read from the left: [cur] is the piece being
    read and [inSpace] tells whether it is a run of white space.  The
    pieces alternate between text without white space (possibly empty at
    both ends) and the captured runs of white space. *)
Fixpoint splitRuns (inSpace : bool) (cur : jsstring) (s : jsstring) : list jsstring :=
  match s with
  | [] => if inSpace then [cur; []] else [cur]
  | c :: s' =>
      if isWhiteSpace c then
        if inSpace then splitRuns true (cur ++ [c]) s'
        else cur :: splitRuns true [c] s'
      else
        if inSpace then cur :: splitRuns false [c] s'
        else splitRuns false (cur ++ [c]) s'
  end.

Definition splitWhitespace (text : jsstring) : list jsstring :=
  splitRuns false [] text.

(** The [baseKey] argument: ['part-' + index] or ['fallback']. *)
Inductive baseKey :=
| PartKey (index : nat)
| FallbackKey.

(** React keys, by the template that builds them:
    [baseKey-space-index], [baseKey-word-index], and the URL of a link. *)
Inductive key :=
| SpaceKey (b : baseKey) (index : nat)
| WordKey (b : baseKey) (index : nat)
| UrlKey (u : jsstring).

(** What a fragment holds: text, or the button of a clickable word.
    [onClick] is the argument that the click handler gives to
    [onWordClick]. *)
Inductive child :=
| Text (s : jsstring)
| Button (onClick : jsstring) (ariaLabel : jsstring) (label : jsstring).

Inductive element :=
| Fragment (k : key) (children : list child)
| Anchor (href : jsstring) (k : key) (label : jsstring).

(** An entry of [contentParts]: [string | React.ReactElement]. *)
Inductive part :=
| PString (s : jsstring)
| PElement (e : element).

(** The text a reader sees. *)
Definition childText (c : child) : jsstring :=
  match c with
  | Text s => s
  | Button _ _ label => label
  end.

Definition elementText (e : element) : jsstring :=
  match e with
  | Fragment _ children => concat (map childText children)
  | Anchor _ _ label => label
  end.

Definition partText (p : part) : jsstring :=
  match p with
  | PString s => s
  | PElement e => elementText e
  end.

Definition visibleText (elements : list element) : jsstring :=
  concat (map elementText elements).

(** The words that a click on the element can send to [onWordClick]. *)
Definition clickWords (e : element) : list jsstring :=
  match e with
  | Fragment _ children =>
      flat_map (fun c => match c with Button w _ _ => [w] | Text _ => [] end) children
  | Anchor _ _ _ => []
  end.

Definition anchorOf (link : Link) : element :=
  Anchor (url link) (UrlKey (url link)) (title link).

(** The comparator given to [sort]. *)
Definition compareLinks (a b : Link) : Z :=
  jslength (title b) - jslength (title a).

Fixpoint insertSorted (x : Link) (sorted : list Link) : list Link :=
  match sorted with
  | [] => [x]
  | y :: sorted' =>
      if compareLinks x y <=? 0 then x :: sorted else y :: insertSorted x sorted'
  end.

(** [[...links].sort(compareLinks)]: the sort is stable, so among links
    that compare equal the earlier one stays first. *)
Definition sortLinks (links : list Link) : list Link :=
  foldr insertSorted [] links.

Section Renderer.

Variable toLowerCase : jsstring -> jsstring.

(** [punctuation] and [word] of a part. *)
Definition punctuationOf (part : jsstring) : jsstring :=
  match matchTrailingPunctuation part with
  | Some m => m
  | None => []
  end.

Definition wordOf (part : jsstring) : jsstring :=
  let punctuation := punctuationOf part in
  if truthy punctuation then slice part 0 (- jslength punctuation) else part.

(** The body of the [forEach] in [renderInteractiveWords]. *)
Definition renderPart (b : baseKey) (index : nat) (part : jsstring) : element :=
  if streq (trim part) [] then Fragment (SpaceKey b index) [Text part]
  else
    let punctuation := punctuationOf part in
    let word := wordOf part in
    if bool_decide (toLowerCase word ∈ STOP_WORDS) || streq word [] then
      Fragment (WordKey b index) [Text part]
    else
      Fragment (WordKey b index)
        [Button word (js "Learn more about " ++ word) word; Text punctuation].

Fixpoint renderPartsFrom (b : baseKey) (index : nat) (parts : list jsstring) : list element :=
  match parts with
  | [] => []
  | part :: parts' => renderPart b index part :: renderPartsFrom b (S index) parts'
  end.

Definition renderInteractiveWords (text : jsstring) (b : baseKey) : list element :=
  renderPartsFrom b 0 (splitWhitespace text).

(** The callback of the first [flatMap], on one entry: [linkPlaced] is
    the flag the callback shares with the loop body. *)
Definition embedInPart (link : Link) (linkPlaced : bool) (p : part) : list part * bool :=
  match p with
  | PElement _ => ([p], linkPlaced)
  | PString s =>
      if linkPlaced then ([p], linkPlaced)
      else
        let i := indexOf s (title link) in
        if i =? -1 then ([p], linkPlaced)
        else
          let before := substring s 0 i in
          let after := substringFrom s (i + jslength (title link)) in
          ((if truthy before then [PString before] else [])
             ++ [PElement (anchorOf link)]
             ++ (if truthy after then [PString after] else []),
           true)
  end.

Fixpoint embedLink (link : Link) (linkPlaced : bool) (parts : list part) : list part * bool :=
  match parts with
  | [] => ([], linkPlaced)
  | p :: parts' =>
      let (pieces, placed) := embedInPart link linkPlaced p in
      let (rest, placed') := embedLink link placed parts' in
      (pieces ++ rest, placed')
  end.

(** First pass: the [for] loop over the sorted links.  [calls] collects
    the URLs given to [onLinkUsed]; the set [usedLinks] is the one the
    component received and does not change during the pass. *)
Fixpoint embedLinks (usedLinks : gset jsstring) (sortedLinks : list Link)
    (contentParts : list part) (calls : list jsstring) : list part * list jsstring :=
  match sortedLinks with
  | [] => (contentParts, calls)
  | link :: sortedLinks' =>
      if bool_decide (url link ∈ usedLinks) then
        embedLinks usedLinks sortedLinks' contentParts calls
      else
        let (contentParts', placed) := embedLink link false contentParts in
        embedLinks usedLinks sortedLinks' contentParts'
          (if placed then calls ++ [url link] else calls)
  end.

(** Second pass: the [flatMap] with its index. *)
Fixpoint renderContentParts (index : nat) (contentParts : list part) : list element :=
  match contentParts with
  | [] => []
  | PString s :: rest =>
      renderInteractiveWords s (PartKey index) ++ renderContentParts (S index) rest
  | PElement e :: rest => e :: renderContentParts (S index) rest
  end.

(** [InteractiveContent]: the elements of the paragraph, and the calls
    made to [onLinkUsed]. *)
Definition InteractiveContent (content : jsstring) (links : list Link)
    (usedLinks : gset jsstring) : list element * list jsstring :=
  let sortedLinks := sortLinks links in
  let (contentParts, calls) := embedLinks usedLinks sortedLinks [PString content] [] in
  (renderContentParts 0 contentParts, calls).

End Renderer.

(** ** geminiService: the structured answer *)

#[local] Set Warnings "-register-all".

(** A value that [JSON.parse] returns.  A number carries the exact value
    of its double; an object carries its members in the order of the
    text. *)
Inductive json :=
| JNull
| JBool (b : bool)
| JNumber (q : Q)
| JString (s : jsstring)
| JArray (items : list json)
| JObject (members : list (jsstring * json)).

(** The member that a name denotes: when the text repeats a name, the last
    one. *)
Fixpoint member (name : jsstring) (members : list (jsstring * json)) : option json :=
  match members with
  | [] => None
  | (k, v) :: members' =>
      match member name members' with
      | Some v' => Some v'
      | None => if streq k name then Some v else None
      end
  end.

(** [v.name] for the names the service reads ([explanation], [suggestion],
    [links]), which no prototype defines: [None] is [undefined], and
    reading a property of [null] throws. *)
Definition getProp (v : json) (name : jsstring) : result (option json) :=
  match v with
  | JNull => Throw TypeError
  | JObject members => Ok (member name members)
  | _ => Ok None
  end.

(** Truthiness of a value that may be [undefined]. *)
Definition truthyValue (v : option json) : bool :=
  match v with
  | None => false
  | Some JNull => false
  | Some (JBool b) => b
  | Some (JNumber q) => negb (Qeq_bool q 0)
  | Some (JString s) => truthy s
  | Some (JArray _) => true
  | Some (JObject _) => true
  end.

(** [Array.isArray(v)]. *)
Definition isArray (v : option json) : bool :=
  match v with
  | Some (JArray _) => true
  | _ => false
  end.

(** The text of a response, by what [JSON.parse(response.text.trim())]
    does with it. *)
Inductive responseText :=
| NoText
| Unparsable
| Parsed (v : json).

(** How the request to the backend ends.  A rejection carries its reason
    when the reason is an [Error], and [None] otherwise. *)
Inductive apiOutcome :=
| Rejected (reason : option exn)
| Resolved (r : responseText).

Section StructuredAnswer.

(** The message the engine gives to its own errors. *)
Variable engineMessage : exn -> jsstring.

Definition messageOf (e : exn) : jsstring :=
  match e with
  | Error message => message
  | _ => engineMessage e
  end.

(** The statements between the request and [return parsedData]. *)
Definition checkParsed (r : responseText) : result json :=
  match r with
  | NoText => Throw TypeError
  | Unparsable => Throw SyntaxError
  | Parsed parsedData =>
      match getProp parsedData (js "explanation") with
      | Throw e => Throw e
      | Ok explanation_ =>
          if negb (truthyValue explanation_) then
            Throw (Error (js "Invalid response structure received from API."))
          else
            match getProp parsedData (js "suggestion") with
            | Throw e => Throw e
            | Ok suggestion_ =>
                if negb (truthyValue suggestion_) then
                  Throw (Error (js "Invalid response structure received from API."))
                else
                  match getProp parsedData (js "links") with
                  | Throw e => Throw e
                  | Ok links_ =>
                      if negb (isArray links_) then
                        Throw (Error (js "Invalid response structure received from API."))
                      else Ok parsedData
                  end
            end
      end
  end.

(** [getStructuredAnswer]: [apiKey] is [process.env.API_KEY]. *)
Definition getStructuredAnswer (apiKey : option jsstring) (topic : jsstring)
    (outcome : apiOutcome) : result json :=
  if negb (match apiKey with Some k => truthy k | None => false end) then
    Throw (Error (js "API_KEY is not configured. Please check your environment variables to continue."))
  else
    let wrap (errorMessage : jsstring) : result json :=
      Throw (Error (js "Could not generate content for " ++ [34%N] ++ topic
                      ++ [34%N] ++ js ". " ++ errorMessage)) in
    match outcome with
    | Rejected (Some e) => wrap (messageOf e)
    | Rejected None => wrap (js "An unknown error occurred.")
    | Resolved r =>
        match checkParsed r with
        | Ok parsedData => Ok parsedData
        | Throw e => wrap (messageOf e)
        end
    end.

End StructuredAnswer.

(** The shape that the specification expects of a structured answer, in
    its words: [{explanation: string, suggestion: string, links: [{title,
    url}, ...]}] with 3 to 5 links.  It is the yardstick that
    [checkParsed] is compared with, not a part of the service. *)
Definition isStringValue (v : option json) : bool :=
  match v with Some (JString _) => true | _ => false end.

Definition isLinkShape (v : json) : bool :=
  match v with
  | JObject members =>
      isStringValue (member (js "title") members) && isStringValue (member (js "url") members)
  | _ => false
  end.

Definition hasExpectedShape (v : json) : bool :=
  match v with
  | JObject members =>
      isStringValue (member (js "explanation") members)
      && isStringValue (member (js "suggestion") members)
      && match member (js "links") members with
         | Some (JArray items) =>
             forallb isLinkShape items
             && (3 <=? jslength items) && (jslength items <=? 5)
         | _ => false
         end
  | _ => false
  end.

(** A response that is malformed or lacks a required field. *)
Definition malformedOrIncomplete (r : responseText) : bool :=
  match r with
  | Parsed v => negb (hasExpectedShape v)
  | _ => true
  end.

(** ** Vocabulary of the statements *)

(** [s] contains [t] as a substring. *)
Definition contains (s t : jsstring) : Prop :=
  exists before after, s = before ++ t ++ after.

(** The shape of the pieces of [split]: text free of white space and
    non-empty runs of white space take turns. *)
Fixpoint alternates (inSpace : bool) (parts : list jsstring) : Prop :=
  match parts with
  | [] => True
  | p :: rest =>
      (if inSpace then p <> [] /\ forallb isWhiteSpace p = true
       else forallb (fun c => negb (isWhiteSpace c)) p = true)
      /\ alternates (negb inSpace) rest
  end.

(** The order the links are taken in: longer titles first. *)
Definition longerFirst (a b : Link) : Prop :=
  jslength (title b) <= jslength (title a).

(** What takes the place of a fragment [before ++ title ++ after]: up to
    three pieces, of which the text pieces are left out when empty. *)
Definition splice (link : Link) (before after : jsstring) : list part :=
  (if truthy before then [PString before] else [])
    ++ [PElement (anchorOf link)]
    ++ (if truthy after then [PString after] else []).

(** The link is embedded in the first text fragment that contains its
    title, at the first occurrence of the title in that fragment. *)
Inductive placedAt (link : Link) : list part -> list part -> Prop :=
| placedAt_intro (pre post : list part) (s before after : jsstring) :
    (forall s', PString s' ∈ pre -> ~ contains s' (title link)) ->
    s = before ++ title link ++ after ->
    (forall before' after',
        s = before' ++ title link ++ after' -> (length before <= length before')%nat) ->
    placedAt link (pre ++ PString s :: post) (pre ++ splice link before after ++ post).

(** The link-splicing pass in the words of the specification: the links
    are taken in the order given; a link whose URL is in the used set is
    skipped; a link whose title no text fragment contains changes nothing;
    any other link is embedded once, and its URL is reported. *)
Inductive linkPass (usedLinks : gset jsstring) :
    list Link -> list part -> list jsstring -> list part -> list jsstring -> Prop :=
| linkPass_done parts calls :
    linkPass usedLinks [] parts calls parts calls
| linkPass_used link rest parts calls parts' calls' :
    url link ∈ usedLinks ->
    linkPass usedLinks rest parts calls parts' calls' ->
    linkPass usedLinks (link :: rest) parts calls parts' calls'
| linkPass_absent link rest parts calls parts' calls' :
    url link ∉ usedLinks ->
    (forall s, PString s ∈ parts -> ~ contains s (title link)) ->
    linkPass usedLinks rest parts calls parts' calls' ->
    linkPass usedLinks (link :: rest) parts calls parts' calls'
| linkPass_placed link rest parts mid calls parts' calls' :
    url link ∉ usedLinks ->
    placedAt link parts mid ->
    linkPass usedLinks rest mid (calls ++ [url link]) parts' calls' ->
    linkPass usedLinks (link :: rest) parts calls parts' calls'.

(** The anchors among the parts, in order. *)
Definition anchorsOf (parts : list part) : list element :=
  omap (fun p => match p with PElement e => Some e | PString _ => None end) parts.

(** What the service asks of a parsed response before it returns it: an
    object whose [explanation] and [suggestion] are truthy and whose [links]
    is an array. *)
Definition accepted (v : json) : bool :=
  match v with
  | JObject members =>
      truthyValue (member (js "explanation") members)
      && truthyValue (member (js "suggestion") members)
      && isArray (member (js "links") members)
  | _ => false
  end.

Definition keyConfigured (apiKey : option jsstring) : bool :=
  match apiKey with Some k => truthy k | None => false end.

(** ** App: the footer buttons *)

(** [disabled={historyIndex <= 0}] of the Previous button. *)
Definition previousDisabled (st : NavState) : bool :=
  historyIndex st <=? 0.

(** [disabled={historyIndex >= history.length - 1}] of the Next button. *)
Definition nextDisabled (st : NavState) : bool :=
  historyIndex st >=? jslength (history st) - 1.

(** A topic as [changeTopic] stores it: not empty, and with no white space
    at either end. *)
Definition isTopic (t : jsstring) : Prop :=
  t <> [] /\ trim t = t.

(** The shape of a history that navigation builds: the cursor is [-1]
    exactly while the history is empty, every entry is a topic, and no two
    neighbours are the same topic when case is ignored. *)
Definition historyWellFormed (toLowerCase : jsstring -> jsstring) (st : NavState) : Prop :=
  (historyIndex st = -1 <-> history st = []) /\
  Forall isTopic (history st) /\
  (forall i a b,
      history st !! i = Some a -> history st !! S i = Some b ->
      toLowerCase a <> toLowerCase b).

(** ** ContentDisplay: the component *)

(** What [ContentDisplay] returns: nothing, the streaming paragraph (the
    text followed by a cursor), or the paragraph of elements. *)
Inductive rendered :=
| RNull
| RStreaming (content : jsstring)
| RParagraph (elements : list element).

Definition StreamingContent (content : jsstring) : rendered :=
  RStreaming content.

(** The text of what is rendered; the cursor of the streaming paragraph is
    the character [|]. *)
Definition renderedText (r : rendered) : jsstring :=
  match r with
  | RNull => []
  | RStreaming content => content ++ js "|"
  | RParagraph elements => visibleText elements
  end.

(** The words that clicks on what is rendered can send to [onWordClick]. *)
Definition renderedClickWords (r : rendered) : list jsstring :=
  match r with
  | RParagraph elements => flat_map clickWords elements
  | _ => []
  end.

Section Component.

Variable toLowerCase : jsstring -> jsstring.

(** [ContentDisplay]: [links] is [None] when the property holds no array
    ([null] or [undefined]); an array is truthy even when empty.  The
    second component collects the calls to [onLinkUsed]. *)
Definition ContentDisplay (content : jsstring) (isLoading : bool)
    (links : option (list Link)) (usedLinks : gset jsstring) : rendered * list jsstring :=
  if isLoading then (StreamingContent content, [])
  else
    match truthy content, links with
    | true, Some links' =>
        let (elements, calls) := InteractiveContent toLowerCase content links' usedLinks in
        (RParagraph elements, calls)
    | true, None =>
        (RParagraph (renderInteractiveWords toLowerCase content FallbackKey), [])
    | false, _ => (RNull, [])
    end.

End Component.

(** [handleLinkUsed]: the updater given to [setUsedLinks], a copy of the
    set with the URL added. *)
Definition handleLinkUsed (prev : gset jsstring) (u : jsstring) : gset jsstring :=
  {[u]} ∪ prev.

(** The used set after React has applied the updaters of a list of calls,
    in order. *)
Definition applyLinkUsed (usedLinks : gset jsstring) (calls : list jsstring) : gset jsstring :=
  foldl handleLinkUsed usedLinks calls.

(** Text free of white space. *)
Definition noWhiteSpace (s : jsstring) : Prop :=
  forallb (fun c => negb (isWhiteSpace c)) s = true.

(** What holds of a word that a click can send: it is not empty, not a stop
    word, has no white space (so trimming leaves it as it is), does not end
    with punctuation, and occurs in the text. *)
Definition clickable (toLowerCase : jsstring -> jsstring) (text w : jsstring) : Prop :=
  w <> [] /\
  (toLowerCase w ∉ STOP_WORDS) /\
  noWhiteSpace w /\
  trim w = w /\
  (forall r c, w = r ++ [c] -> isPunctuation c = false) /\
  contains text w.

(** ** geminiService: the ASCII art *)

(** [`${n}`] for an integer. *)
Definition numberToString (n : Z) : jsstring :=
  js (NilZero.string_of_int (Z.to_int n)).

(** [s.startsWith(t)], [s.endsWith(t)]. *)
Definition startsWith (s t : jsstring) : bool := isPrefix t s.
Definition endsWith (s t : jsstring) : bool := isPrefix (rev t) (rev s).

(** The pieces of a regular expression, as a backtracking matcher tries
    them: each takes the matcher of what follows it and the input that is
    left.  A greedy piece tries its longest match first, a lazy one its
    shortest. *)
Section Regex.

Context {R : Type}.

(** Literal text. *)
Definition lit (s : jsstring) (k : jsstring -> option R) (input : jsstring) : option R :=
  if isPrefix s input then k (drop (length s) input) else None.

(** [(?:s)?] *)
Definition optLit (s : jsstring) (k : jsstring -> option R) (input : jsstring) : option R :=
  match lit s k input with
  | Some r => Some r
  | None => k input
  end.

(** [c*] for a class of characters [c]. *)
Fixpoint starGreedy (p : N -> bool) (k : jsstring -> option R) (input : jsstring) : option R :=
  match input with
  | c :: rest =>
      if p c then
        match starGreedy p k rest with
        | Some r => Some r
        | None => k input
        end
      else k input
  | [] => k []
  end.

(** [c?] for a class of characters [c]. *)
Definition optClass (p : N -> bool) (k : jsstring -> option R) (input : jsstring) : option R :=
  match input with
  | c :: rest =>
      if p c then
        match k rest with
        | Some r => Some r
        | None => k input
        end
      else k input
  | [] => k []
  end.

(** [(.*?)] under the flag [s]: the dot takes any code unit.  What follows
    is given the captured text [acc]. *)
Fixpoint lazyAny (k : jsstring -> jsstring -> option R) (acc input : jsstring) : option R :=
  match k acc input with
  | Some r => Some r
  | None =>
      match input with
      | c :: rest => lazyAny k (acc ++ [c]) rest
      | [] => None
      end
  end.

(** [$] *)
Definition atEnd (r : R) (input : jsstring) : option R :=
  match input with
  | [] => Some r
  | _ => None
  end.

End Regex.

(** Three backticks. *)
Definition fence : jsstring := [96%N; 96%N; 96%N].

Definition isNewline (c : N) : bool := (c =? 10)%N.

(** [jsonStr.match(fenceRegex)] for the fence pattern, which starts with
    [^] and so matches at the first position only: the first group of
    the match, or [None] when there is no match. *)
Definition fenceRegex (jsonStr : jsstring) : option jsstring :=
  lit fence
    (optLit (js "json")
       (starGreedy isWhiteSpace
          (optClass isNewline
             (lazyAny
                (fun capture =>
                   optClass isNewline
                     (starGreedy isWhiteSpace (lit fence (atEnd capture))))
                []))))
    jsonStr.

(** The text after the fences are removed, if there are any. *)
Definition stripFence (jsonStr : jsstring) : jsstring :=
  match fenceRegex jsonStr with
  | Some group => if truthy group then trim group else jsonStr
  | None => jsonStr
  end.

(** How a request for art ends: a rejection with its reason (when the
    reason is an [Error]), or a response with its text. *)
Inductive artOutcome :=
| ArtRejected (reason : option exn)
| ArtResolved (text : option jsstring).

Definition maxRetries : Z := 1.

Section AsciiArt.

Variable engineMessage : exn -> jsstring.

(** [JSON.parse] of the host: [None] when it throws a [SyntaxError]. *)
Variable JSON_parse : jsstring -> option json.

(** The body of the [try]: the result, or what is thrown ([None] for a
    thrown value that is not an [Error]). *)
Definition artAttempt (outcome : artOutcome) : AsciiArtData + option exn :=
  match outcome with
  | ArtRejected reason => inr reason
  | ArtResolved None => inr (Some TypeError)
  | ArtResolved (Some responseText) =>
      let jsonStr := stripFence (trim responseText) in
      if negb (startsWith jsonStr (js "{")) || negb (endsWith jsonStr (js "}")) then
        inr (Some (Error (js "Response is not a valid JSON object")))
      else
        match JSON_parse jsonStr with
        | None => inr (Some SyntaxError)
        | Some parsedData =>
            match getProp parsedData (js "art") with
            | Throw e => inr (Some e)
            | Ok (Some (JString a)) =>
                if jslength (trim a) =? 0 then
                  inr (Some (Error (js "Invalid or empty ASCII art in response")))
                else inl (mkArt a None)
            | Ok _ => inr (Some (Error (js "Invalid or empty ASCII art in response")))
            end
        end
  end.

(** The [for] loop: [fuel] counts the attempts that are left, and
    [respond] gives the outcome of the request of each attempt. *)
Fixpoint artLoop (respond : Z -> artOutcome) (fuel : nat) (attempt : Z)
    (lastError : option exn) : result AsciiArtData :=
  match fuel with
  | O =>
      Throw (match lastError with
             | Some e => e
             | None => Error (js "All retry attempts failed")
             end)
  | S fuel' =>
      match artAttempt (respond attempt) with
      | inl result => Ok result
      | inr thrown =>
          let lastError' :=
            match thrown with
            | Some e => e
            | None => Error (js "Unknown error occurred")
            end in
          if attempt =? maxRetries then
            Throw (Error (js "Could not generate ASCII art after " ++ numberToString maxRetries
                            ++ js " attempts: " ++ messageOf engineMessage lastError'))
          else artLoop respond fuel' (attempt + 1) (Some lastError')
      end
  end.

(** [generateAsciiArt]. *)
Definition generateAsciiArt (apiKey : option jsstring) (topic : jsstring)
    (respond : Z -> artOutcome) : result AsciiArtData :=
  if negb (keyConfigured apiKey) then Throw (Error (js "API_KEY is not configured."))
  else artLoop respond (Z.to_nat maxRetries) 1 None.

End AsciiArt.

(** JSON.parse restricted to one text, [{"art":"[]"}], to run the art
    service on concrete responses. *)
Definition sampleArtText : jsstring :=
  js "{" ++ [34%N] ++ js "art" ++ [34%N] ++ js ":" ++ [34%N] ++ js "[]" ++ [34%N] ++ js "}".

Definition parseSample (s : jsstring) : option json :=
  if streq s sampleArtText then Some (JObject [(js "art", JString (js "[]"))]) else None.

(** ** App: the fetch effect *)

Section Fetch.

(** The values of [performance.now()] and their difference. *)
Variable number : Type.
Variable minus : number -> number -> number.

Variable engineMessage : exn -> jsstring.

(** The cells of [App] that the effect writes.  [Display] gives some of
    them the types the component declares; here they hold what the effect
    can store: the fields of a parsed response as they come ([None] for
    [undefined]). *)
Record Page := mkPage {
  pageExplanation : option json;
  pageSuggestion : option json;
  pageLinks : option json;
  pageIsLoading : bool;
  pageError : option jsstring;
  pageAsciiArt : option AsciiArtData;
  pageGenerationTime : option number;
  pageUsedLinks : gset jsstring
}.

(** The cells as the [useState] calls set them. *)
Definition initialPage : Page :=
  mkPage (Some (JString [])) (Some (JString [])) (Some (JArray [])) false None None None ∅.

(** One run of the effect: the topic and the start time it closed over, and
    its flag [isCancelled]. *)
Record Run := mkRun {
  runTopic : jsstring;
  startTime : number;
  isCancelled : bool
}.

(** The cleanup function that the effect returns. *)
Definition cleanup (run : Run) : Run :=
  mkRun (runTopic run) (startTime run) true.

(** The effect up to its first suspension: nothing for a falsy topic,
    otherwise the clean page and a new run.  [now] is the start time. *)
Definition startFetch (page : Page) (currentTopic : option jsstring) (now : number)
    : Page * option Run :=
  match currentTopic with
  | Some topic =>
      if truthy topic then
        (mkPage (Some (JString [])) (Some (JString [])) (Some (JArray [])) true None None None ∅,
         Some (mkRun topic now false))
      else (page, None)
  | None => (page, None)
  end.

(** The [then] and [catch] callbacks of the art request. *)
Definition artSettled (run : Run) (outcome : result AsciiArtData) (page : Page) : Page :=
  if isCancelled run then page
  else
    let shown :=
      match outcome with
      | Ok artData => artData
      | Throw _ => createFallbackArt (runTopic run)
      end in
    mkPage (pageExplanation page) (pageSuggestion page) (pageLinks page) (pageIsLoading page)
           (pageError page) (Some shown) (pageGenerationTime page) (pageUsedLinks page).

(** The [catch] block of the answer request.  Whatever the model can throw
    is an [Error], so the message is the error's own. *)
Definition answerFailed (e : exn) (page : Page) : Page :=
  mkPage (Some (JString [])) (Some (JString [])) (Some (JArray [])) (pageIsLoading page)
         (Some (messageOf engineMessage e)) (pageAsciiArt page) (pageGenerationTime page)
         (pageUsedLinks page).

(** The continuation of [await getStructuredAnswer(currentTopic)]: the
    [try], the [catch] and the [finally]; [endTime] is the time at the
    [finally].  Reading a field of a [null] result throws inside the
    [try]. *)
Definition answerSettled (run : Run) (outcome : result json) (endTime : number) (page : Page)
    : Page :=
  if isCancelled run then page
  else
    let page1 :=
      match outcome with
      | Ok result =>
          match getProp result (js "explanation"),
                getProp result (js "suggestion"),
                getProp result (js "links") with
          | Ok explanation_, Ok suggestion_, Ok links_ =>
              mkPage explanation_ suggestion_ links_ (pageIsLoading page) (pageError page)
                     (pageAsciiArt page) (pageGenerationTime page) (pageUsedLinks page)
          | Throw e, _, _ | _, Throw e, _ | _, _, Throw e => answerFailed e page
          end
      | Throw e => answerFailed e page
      end in
    mkPage (pageExplanation page1) (pageSuggestion page1) (pageLinks page1) false
           (pageError page1) (pageAsciiArt page1)
           (Some (minus endTime (startTime run))) (pageUsedLinks page1).

(** The page and the runs of the effect so far, the latest last. *)
Record Fetching := mkFetching {
  page : Page;
  runs : list Run
}.

(** What happens to the effect: the topic changes (React runs the cleanup
    of the previous run, then the effect; the runs before it were cleaned
    up when they were left, and cleaning up again changes nothing), or a
    request of run number [id] settles. *)
Inductive fetchEvent :=
| TopicChanged (currentTopic : option jsstring) (now : number)
| ArtSettled (id : nat) (outcome : result AsciiArtData)
| AnswerSettled (id : nat) (outcome : result json) (endTime : number).

Definition fetchStep (s : Fetching) (ev : fetchEvent) : Fetching :=
  match ev with
  | TopicChanged currentTopic now =>
      let cancelled := map cleanup (runs s) in
      match startFetch (page s) currentTopic now with
      | (page', Some run) => mkFetching page' (cancelled ++ [run])
      | (page', None) => mkFetching page' cancelled
      end
  | ArtSettled id outcome =>
      match runs s !! id with
      | Some run => mkFetching (artSettled run outcome (page s)) (runs s)
      | None => s
      end
  | AnswerSettled id outcome endTime =>
      match runs s !! id with
      | Some run => mkFetching (answerSettled run outcome endTime (page s)) (runs s)
      | None => s
      end
  end.

Definition fetchRun (events : list fetchEvent) : Fetching :=
  foldl fetchStep (mkFetching initialPage []) events.

(** The four blocks of the page, by the conditions that guard them: the
    error box, the skeleton, the content, and the notice that nothing could
    be generated. *)
Definition errorTruthy (page : Page) : bool :=
  match pageError page with
  | Some message => truthy message
  | None => false
  end.

Definition showsError (page : Page) : bool := errorTruthy page.

Definition showsSkeleton (page : Page) : bool :=
  pageIsLoading page && negb (errorTruthy page).

Definition showsContent (page : Page) : bool :=
  negb (pageIsLoading page) && negb (errorTruthy page) && truthyValue (pageExplanation page).

Definition showsNoContent (page : Page) (history_ : list jsstring) : bool :=
  negb (pageIsLoading page) && negb (errorTruthy page)
  && negb (truthyValue (pageExplanation page)) && (0 <? jslength history_).

End Fetch.

(** Every run but the latest has been cancelled. *)
Definition olderCancelled {number : Type} (s : Fetching number) : Prop :=
  forall id run, runs number s !! id = Some run -> (S id < length (runs number s))%nat ->
                 isCancelled number run = true.

(** * Properties *)

(** ** Strings and arrays *)

Lemma jslength_nonneg {A} (l : list A) : 0 <= jslength l.
Proof. unfold jslength. lia. Qed.

Lemma jslength_app {A} (l k : list A) : jslength (l ++ k) = jslength l + jslength k.
Proof. unfold jslength. rewrite length_app. lia. Qed.

Lemma truthy_true (s : jsstring) : truthy s = true <-> s <> [].
Proof. destruct s; simpl; split; congruence. Qed.

Lemma truthy_false (s : jsstring) : truthy s = false <-> s = [].
Proof. destruct s; simpl; split; congruence. Qed.

Lemma streq_true (a b : jsstring) : streq a b = true <-> a = b.
Proof. unfold streq. apply bool_decide_eq_true. Qed.

Lemma streq_false (a b : jsstring) : streq a b = false <-> a <> b.
Proof. unfold streq. apply bool_decide_eq_false. Qed.

(** [l.slice(0, n)] keeps the first [n] entries. *)
Lemma slice_0 {A} (l : list A) (n : Z) :
  0 <= n -> slice l 0 n = take (Z.to_nat n) l.
Proof.
  intros Hn. unfold slice. simpl.
  destruct (Z.ltb_spec n 0) as [?|_]; [lia|].
  pose proof (jslength_nonneg l) as Hl.
  rewrite (Z.min_l 0) by lia. rewrite Z.sub_0_r. simpl. rewrite drop_0.
  destruct (Z.le_gt_cases n (jslength l)) as [Hle|Hgt].
  - rewrite Z.min_l by lia. reflexivity.
  - rewrite Z.min_r by lia. unfold jslength in *.
    rewrite !take_ge by lia. reflexivity.
Qed.

(** [l.slice(0, -k)] drops the last [k] entries. *)
Lemma slice_0_neg {A} (l p : list A) :
  p <> [] -> slice (l ++ p) 0 (- jslength p) = l.
Proof.
  intros Hp. unfold slice. simpl.
  assert (0 < jslength p) by (destruct p; [congruence|unfold jslength; simpl; lia]).
  destruct (Z.ltb_spec (- jslength p) 0) as [_|?]; [|lia].
  pose proof (jslength_nonneg (l ++ p)). pose proof (jslength_nonneg l).
  rewrite (Z.min_l 0) by lia. rewrite jslength_app in *.
  rewrite Z.max_l by lia. rewrite drop_0.
  replace (Z.to_nat (jslength l + jslength p + - jslength p - 0)) with (length l)
    by (unfold jslength; lia).
  apply take_app_length.
Qed.

Lemma index_lookup {A} (l : list A) (i : Z) :
  0 <= i -> index l i = l !! Z.to_nat i.
Proof. intros Hi. unfold index. destruct (Z.ltb_spec i 0); [lia|reflexivity]. Qed.

Lemma index_last {A} (l : list A) (x : A) :
  index (l ++ [x]) (jslength (l ++ [x]) - 1) = Some x.
Proof.
  rewrite jslength_app. pose proof (jslength_nonneg l).
  rewrite index_lookup by (unfold jslength in *; simpl; lia).
  replace (Z.to_nat _) with (length l + 0)%nat by (unfold jslength; simpl; lia).
  rewrite lookup_app_r by lia. replace (length l + 0 - length l)%nat with 0%nat by lia.
  reflexivity.
Qed.

(** ** Navigation *)

Section NavigationFacts.

Variable toLowerCase : jsstring -> jsstring.

(** What [changeTopic] does when it takes the branch. *)
Lemma changeTopic_push (st : NavState) (cur newTopic : jsstring) :
  -1 <= historyIndex st ->
  currentTopic st = Some cur ->
  trim newTopic <> [] ->
  toLowerCase (trim newTopic) <> toLowerCase cur ->
  changeTopic toLowerCase st newTopic =
    Ok (mkNav (take (Z.to_nat (historyIndex st + 1)) (history st) ++ [trim newTopic])
              (jslength (take (Z.to_nat (historyIndex st + 1)) (history st) ++ [trim newTopic]) - 1)
              (Some (trim newTopic))).
Proof.
  intros Hi Hcur Hne Hlow. unfold changeTopic.
  apply truthy_true in Hne. rewrite Hne, Hcur.
  apply streq_false in Hlow. rewrite Hlow. simpl.
  rewrite slice_0 by lia. reflexivity.
Qed.

Lemma changeTopic_same (st : NavState) (cur newTopic : jsstring) :
  currentTopic st = Some cur ->
  trim newTopic = [] \/ toLowerCase (trim newTopic) = toLowerCase cur ->
  changeTopic toLowerCase st newTopic = Ok st.
Proof.
  intros Hcur Hcase. unfold changeTopic.
  destruct (truthy (trim newTopic)) eqn:Ht; [|reflexivity].
  rewrite Hcur. destruct Hcase as [He|Hl].
  - apply truthy_true in Ht. contradiction.
  - apply streq_true in Hl. rewrite Hl. reflexivity.
Qed.

Lemma changeTopic_inv (st : NavState) (newTopic : jsstring) :
  navInv st -> exists st', changeTopic toLowerCase st newTopic = Ok st' /\ navInv st'.
Proof.
  intros [Hrange Hcur].
  assert (exists cur, currentTopic st = Some cur) as [cur Hc].
  { rewrite Hcur. destruct (Z.ltb_spec (historyIndex st) 0); [eauto|].
    rewrite index_lookup by lia.
    apply lookup_lt_is_Some_2. unfold jslength in *. lia. }
  destruct (decide (trim newTopic = [])) as [He|Hne].
  { exists st. split; [apply (changeTopic_same _ cur); auto|split; auto]. }
  destruct (decide (toLowerCase (trim newTopic) = toLowerCase cur)) as [Hl|Hl].
  { exists st. split; [apply (changeTopic_same _ cur); auto|split; auto]. }
  eexists. split; [apply (changeTopic_push _ cur); auto; lia|].
  unfold navInv. simpl.
  set (h := take _ _ ++ _).
  assert (0 < jslength h) by (subst h; rewrite jslength_app; pose proof (jslength_nonneg (take (Z.to_nat (historyIndex st + 1)) (history st))); unfold jslength at 2; simpl; lia).
  split; [lia|].
  destruct (Z.ltb_spec (jslength h - 1) 0); [lia|].
  subst h. symmetry. apply index_last.
Qed.

Lemma handlePrevious_inv (st : NavState) : navInv st -> navInv (handlePrevious st).
Proof.
  intros [Hrange Hcur]. unfold handlePrevious.
  destruct (Z.ltb_spec 0 (historyIndex st)); [|split; auto].
  unfold navInv. simpl. split; [lia|].
  destruct (Z.ltb_spec (historyIndex st - 1) 0); [lia|reflexivity].
Qed.

Lemma handleNext_inv (st : NavState) : navInv st -> navInv (handleNext st).
Proof.
  intros [Hrange Hcur]. unfold handleNext.
  destruct (Z.ltb_spec (historyIndex st) (jslength (history st) - 1)); [|split; auto].
  unfold navInv. simpl. split; [lia|].
  destruct (Z.ltb_spec (historyIndex st + 1) 0); [lia|reflexivity].
Qed.

Lemma initialNav_inv : navInv initialNav.
Proof. unfold navInv, initialNav, jslength. simpl. split; [lia|reflexivity]. Qed.

Lemma step_inv (st : NavState) (a : action) :
  navInv st -> exists st', step toLowerCase st a = Ok st' /\ navInv st'.
Proof.
  intros Hinv. destruct a; simpl.
  - apply changeTopic_inv; assumption.
  - eexists; split; [reflexivity|apply handlePrevious_inv; assumption].
  - eexists; split; [reflexivity|apply handleNext_inv; assumption].
Qed.

Lemma run_inv (acts : list action) (st : NavState) :
  navInv st -> exists st', run toLowerCase st acts = Ok st' /\ navInv st'.
Proof.
  revert st. induction acts as [|a acts IH]; intros st Hinv; simpl.
  - eauto.
  - destruct (step_inv st a Hinv) as (st1 & -> & Hinv1). apply IH; assumption.
Qed.

(** After pushes alone the cursor is on the last entry. *)
Lemma run_pushes_at_end (acts : list action) (st st' : NavState) :
  navInv st ->
  historyIndex st = jslength (history st) - 1 ->
  Forall isPush acts ->
  run toLowerCase st acts = Ok st' ->
  historyIndex st' = jslength (history st') - 1.
Proof.
  revert st. induction acts as [|a acts IH]; intros st Hinv Hend Hall Hrun; simpl in Hrun.
  - congruence.
  - inversion Hall as [|? ? Ha Hall']; subst.
    destruct a as [topic| |]; simpl in Ha; try contradiction.
    destruct (changeTopic_inv st topic Hinv) as (st1 & Hst1 & Hinv1).
    simpl in Hrun. rewrite Hst1 in Hrun.
    apply (IH st1); auto.
    unfold changeTopic in Hst1.
    destruct (truthy (trim topic)); [|congruence].
    destruct (currentTopic st); [|discriminate].
    destruct (negb _); inversion Hst1; subst; simpl; auto.
Qed.

End NavigationFacts.

Section NavigationTheorems.

Variable toLowerCase : jsstring -> jsstring.

(** C2: [changeTopic] (push) leaves history, cursor and current topic as
    they are when the topic is empty after trimming or has the same
    lower case as the current topic; otherwise it keeps the entries up to
    the cursor, appends the trimmed topic, puts the cursor on the new last
    entry and makes the trimmed topic current. *)
Theorem changeTopic_spec (st : NavState) (cur newTopic : jsstring) :
  -1 <= historyIndex st ->
  currentTopic st = Some cur ->
  (trim newTopic = [] \/ toLowerCase (trim newTopic) = toLowerCase cur ->
     changeTopic toLowerCase st newTopic = Ok st) /\
  (trim newTopic <> [] /\ toLowerCase (trim newTopic) <> toLowerCase cur ->
     exists st',
       changeTopic toLowerCase st newTopic = Ok st' /\
       history st' = take (Z.to_nat (historyIndex st + 1)) (history st) ++ [trim newTopic] /\
       historyIndex st' = jslength (history st') - 1 /\
       index (history st') (historyIndex st') = Some (trim newTopic) /\
       currentTopic st' = Some (trim newTopic)).
Proof.
  intros Hi Hcur. split.
  - apply changeTopic_same; assumption.
  - intros [Hne Hlow]. eexists. split; [apply (changeTopic_push _ _ cur); assumption|].
    simpl. repeat split. apply index_last.
Qed.

(** C5: from the initial state, every sequence of push, back and forward
    runs without an error and leaves the cursor between -1 and
    length - 1. *)
Theorem cursor_in_range (acts : list action) :
  exists st,
    run toLowerCase initialNav acts = Ok st /\
    -1 <= historyIndex st <= jslength (history st) - 1.
Proof.
  destruct (run_inv toLowerCase acts initialNav initialNav_inv) as (st & Hrun & Hrange & _).
  exists st. split; assumption.
Qed.

(** C6: [handlePrevious] (back) changes nothing when the cursor is at most
    0 and otherwise moves the cursor down by one and makes
    [history[cursor]] current; [handleNext] (forward) changes nothing when
    the cursor is at least length - 1 and otherwise moves the cursor up by
    one and makes [history[cursor]] current.  Both are total: at the
    boundary the step of the store returns the state it was given, and
    whenever the cursor was within the history the new current topic is
    an entry of the history. *)
Theorem back_forward_spec (st : NavState) :
  (historyIndex st <= 0 ->
     handlePrevious st = st /\ step toLowerCase st Back = Ok st) /\
  (0 < historyIndex st ->
     history (handlePrevious st) = history st /\
     historyIndex (handlePrevious st) = historyIndex st - 1 /\
     currentTopic (handlePrevious st) = index (history st) (historyIndex st - 1) /\
     (historyIndex st <= jslength (history st) - 1 ->
        exists t, history st !! Z.to_nat (historyIndex st - 1) = Some t /\
                  currentTopic (handlePrevious st) = Some t)) /\
  (jslength (history st) - 1 <= historyIndex st ->
     handleNext st = st /\ step toLowerCase st Forward = Ok st) /\
  (historyIndex st < jslength (history st) - 1 ->
     history (handleNext st) = history st /\
     historyIndex (handleNext st) = historyIndex st + 1 /\
     currentTopic (handleNext st) = index (history st) (historyIndex st + 1) /\
     (-1 <= historyIndex st ->
        exists t, history st !! Z.to_nat (historyIndex st + 1) = Some t /\
                  currentTopic (handleNext st) = Some t)).
Proof.
  unfold handlePrevious, handleNext, step. repeat split.
  - destruct (Z.ltb_spec 0 (historyIndex st)); [lia|reflexivity].
  - unfold handlePrevious. destruct (Z.ltb_spec 0 (historyIndex st)); [lia|reflexivity].
  - destruct (Z.ltb_spec 0 (historyIndex st)); [reflexivity|lia].
  - destruct (Z.ltb_spec 0 (historyIndex st)); [reflexivity|lia].
  - destruct (Z.ltb_spec 0 (historyIndex st)); [reflexivity|lia].
  - intros Hle. destruct (Z.ltb_spec 0 (historyIndex st)); [simpl|lia].
    rewrite index_lookup by lia.
    destruct (lookup_lt_is_Some_2 (history st) (Z.to_nat (historyIndex st - 1))) as [t Ht].
    { unfold jslength in *. lia. }
    exists t. rewrite Ht. split; reflexivity.
  - destruct (Z.ltb_spec (historyIndex st) (jslength (history st) - 1)); [lia|reflexivity].
  - unfold handleNext.
    destruct (Z.ltb_spec (historyIndex st) (jslength (history st) - 1)); [lia|reflexivity].
  - destruct (Z.ltb_spec (historyIndex st) (jslength (history st) - 1)); [reflexivity|lia].
  - destruct (Z.ltb_spec (historyIndex st) (jslength (history st) - 1)); [reflexivity|lia].
  - destruct (Z.ltb_spec (historyIndex st) (jslength (history st) - 1)); [reflexivity|lia].
  - intros Hle. destruct (Z.ltb_spec (historyIndex st) (jslength (history st) - 1)); [simpl|lia].
    rewrite index_lookup by lia.
    destruct (lookup_lt_is_Some_2 (history st) (Z.to_nat (historyIndex st + 1))) as [t Ht].
    { unfold jslength in *. lia. }
    exists t. rewrite Ht. split; reflexivity.
Qed.

(** C7, as the code has it: in a state reached by pushes, back and
    forward, a back followed by a forward restores the whole state
    (history, cursor, current topic) when the cursor is above 0.  When
    the cursor is at most 0 the back changes nothing; the forward after
    it changes nothing only if the cursor is also on the last entry,
    which is so after pushes alone, and otherwise moves to the next
    entry. *)
Theorem back_then_forward (acts : list action) (st : NavState) :
  run toLowerCase initialNav acts = Ok st ->
  (0 < historyIndex st -> handleNext (handlePrevious st) = st) /\
  (historyIndex st <= 0 ->
     handlePrevious st = st /\
     (jslength (history st) - 1 <= historyIndex st ->
        handleNext (handlePrevious st) = st) /\
     (historyIndex st < jslength (history st) - 1 ->
        handleNext (handlePrevious st) =
          mkNav (history st) (historyIndex st + 1)
                (index (history st) (historyIndex st + 1)))) /\
  (Forall isPush acts -> historyIndex st = jslength (history st) - 1).
Proof.
  intros Hrun.
  destruct (run_inv toLowerCase acts initialNav initialNav_inv) as (st0 & Hrun0 & Hinv).
  rewrite Hrun in Hrun0. inversion Hrun0; subst st0. clear Hrun0.
  destruct Hinv as [Hrange Hcur].
  split; [|split].
  - intros Hpos. unfold handlePrevious.
    destruct (Z.ltb_spec 0 (historyIndex st)); [|lia].
    unfold handleNext. simpl.
    destruct (Z.ltb_spec (historyIndex st - 1) (jslength (history st) - 1)); [|lia].
    replace (historyIndex st - 1 + 1) with (historyIndex st) by lia.
    destruct (Z.ltb_spec (historyIndex st) 0); [lia|].
    rewrite <- Hcur. destruct st; reflexivity.
  - intros Hle.
    assert (handlePrevious st = st) as ->.
    { unfold handlePrevious. destruct (Z.ltb_spec 0 (historyIndex st)); [lia|reflexivity]. }
    split; [reflexivity|]. unfold handleNext.
    split; intros Hb;
      destruct (Z.ltb_spec (historyIndex st) (jslength (history st) - 1)); try lia; reflexivity.
  - intros Hall.
    apply (run_pushes_at_end toLowerCase acts initialNav st initialNav_inv); auto.
Qed.

End NavigationTheorems.

(** The history of the specification's example: after A, B, C and two
    steps back, pushing D leaves [A, D] with the cursor on D. *)
Example push_after_back_truncates :
  run asciiToLowerCase initialNav
      [Push (js "A"); Push (js "B"); Push (js "C"); Back; Back; Push (js "D")]
  = Ok (mkNav [js "A"; js "D"] 1 (Some (js "D"))).
Proof. vm_compute. reflexivity. Qed.

(** Pushing the current topic in another case changes nothing. *)
Example push_same_topic_other_case :
  run asciiToLowerCase initialNav [Push (js "Entropy"); Push (js "  ENTROPY ")]
  = run asciiToLowerCase initialNav [Push (js "Entropy")].
Proof. vm_compute. reflexivity. Qed.

Lemma changeTopic_spec_witness :
  changeTopic asciiToLowerCase (mkNav [js "A"; js "B"; js "C"] 0 (Some (js "A"))) (js " D ")
  = Ok (mkNav [js "A"; js "D"] 1 (Some (js "D"))).
Proof.
  destruct (changeTopic_spec asciiToLowerCase
              (mkNav [js "A"; js "B"; js "C"] 0 (Some (js "A"))) (js "A") (js " D "))
    as [_ Hpush].
  - simpl. lia.
  - reflexivity.
  - destruct Hpush as (st' & Hst' & Hh & Hi & _ & Hc).
    + split; vm_compute; discriminate.
    + rewrite Hst'. destruct st' as [h i c]. simpl in *. subst h i c.
      vm_compute. reflexivity.
Defined.

Lemma back_forward_spec_witness :
  handlePrevious (mkNav [js "A"; js "B"] 1 (Some (js "B")))
  = mkNav [js "A"; js "B"] 0 (Some (js "A")).
Proof.
  destruct (back_forward_spec asciiToLowerCase (mkNav [js "A"; js "B"] 1 (Some (js "B"))))
    as (_ & Hback & _).
  destruct Hback as (Hh & Hi & Hc & _).
  - simpl. lia.
  - destruct (handlePrevious _) as [h i c]. simpl in *. subst. reflexivity.
Defined.

Lemma back_then_forward_witness :
  handleNext (handlePrevious (mkNav [js "A"; js "B"] 1 (Some (js "B"))))
  = mkNav [js "A"; js "B"] 1 (Some (js "B")).
Proof.
  destruct (back_then_forward asciiToLowerCase [Push (js "A"); Push (js "B")]
              (mkNav [js "A"; js "B"] 1 (Some (js "B")))) as (Hrestore & _).
  - vm_compute. reflexivity.
  - apply Hrestore. simpl. lia.
Defined.

(** C7 as stated fails: after pushing A and B and going back, the cursor is
    at the lower boundary; a back changes nothing, but the forward after it
    moves to B, so the pair neither restores the topic A nor leaves the
    state alone. *)
Lemma back_then_forward_at_start :
  let st := mkNav [js "A"; js "B"] 0 (Some (js "A")) in
  run asciiToLowerCase initialNav [Push (js "A"); Push (js "B"); Back] = Ok st /\
  historyIndex st <= 0 /\
  handlePrevious st = st /\
  handleNext (handlePrevious st) <> st /\
  currentTopic (handleNext (handlePrevious st)) = Some (js "B") /\
  currentTopic (handleNext (handlePrevious st)) <> currentTopic st.
Proof.
  vm_compute. repeat split; try lia; discriminate.
Qed.

(** ** Fallback art *)

Lemma substring_0_take (s : jsstring) (n : Z) :
  0 <= n <= jslength s -> substring s 0 n = take (Z.to_nat n) s.
Proof.
  intros Hn. unfold substring. simpl.
  rewrite (Z.max_l n 0) by lia. rewrite (Z.min_l 0) by lia.
  rewrite (Z.min_l n) by lia. rewrite (Z.min_l 0) by lia. rewrite (Z.max_r 0) by lia.
  rewrite Z.sub_0_r. simpl. rewrite drop_0. reflexivity.
Qed.

Lemma linesFrom_no_LF (cur s : jsstring) :
  LF ∉ s -> linesFrom cur s = [cur ++ s].
Proof.
  revert cur. induction s as [|c s IH]; intros cur Hs; simpl.
  - rewrite app_nil_r. reflexivity.
  - apply not_elem_of_cons in Hs as [Hc Hs].
    destruct (N.eqb_spec c LF); [congruence|].
    rewrite IH by assumption. rewrite <- app_assoc. reflexivity.
Qed.

Lemma linesFrom_first (cur s rest : jsstring) :
  LF ∉ s -> linesFrom cur (s ++ LF :: rest) = (cur ++ s) :: linesFrom [] rest.
Proof.
  revert cur. induction s as [|c s IH]; intros cur Hs; simpl.
  - rewrite app_nil_r. reflexivity.
  - apply not_elem_of_cons in Hs as [Hc Hs].
    destruct (N.eqb_spec c LF); [congruence|].
    rewrite IH by assumption. rewrite <- app_assoc. reflexivity.
Qed.

Lemma displayableTopic_take (topic : jsstring) :
  displayableTopic topic =
    if 20 <? jslength topic then take 17 topic ++ js "..." else topic.
Proof.
  unfold displayableTopic. destruct (Z.ltb_spec 20 (jslength topic)); [|reflexivity].
  rewrite substring_0_take by lia. reflexivity.
Qed.

Lemma displayableTopic_no_LF (topic : jsstring) :
  LF ∉ topic -> LF ∉ displayableTopic topic.
Proof.
  intros Hno. rewrite displayableTopic_take.
  destruct (20 <? jslength topic); [|assumption].
  rewrite elem_of_app. intros [Hin|Hin].
  - apply Hno. apply elem_of_take in Hin as (i & Hi & _).
    apply (list_elem_of_lookup_2 _ _ _ Hi).
  - vm_compute in Hin. repeat (apply elem_of_cons in Hin as [Hin|Hin]; [discriminate|]).
    inversion Hin.
Qed.

Lemma border_no_LF (l r : N) (n : Z) :
  l <> LF -> r <> LF -> LF ∉ [l] ++ repeatUnit boxHorizontal n ++ [r].
Proof.
  intros Hl Hr. rewrite !elem_of_app, !list_elem_of_singleton.
  intros [H|[H|H]]; try congruence.
  unfold repeatUnit in H. apply elem_of_replicate in H as [H _]. discriminate.
Qed.

(** C8: the fallback art is a box of three rows joined by line feeds.  The
    topic is shown whole when it has at most 20 code units (the length of
    the truncated form) and otherwise as its first 17 code units followed by
    three dots; it is padded with one space on each side; the middle row
    sets it between vertical bars, and the borders put as many horizontal
    dashes as the padded topic is long between the corners.  The three rows
    have the same length, and are the lines of the art when the topic has
    no line feed of its own. *)
Theorem createFallbackArt_box (topic : jsstring) :
  let shown := if 20 <? jslength topic then take 17 topic ++ js "..." else topic in
  let padded := [32%N] ++ shown ++ [32%N] in
  let top := [boxTopLeft] ++ replicate (length padded) boxHorizontal ++ [boxTopRight] in
  let mid := [boxVertical] ++ padded ++ [boxVertical] in
  let bottom := [boxBottomLeft] ++ replicate (length padded) boxHorizontal ++ [boxBottomRight] in
  art (createFallbackArt topic) = top ++ [LF] ++ mid ++ [LF] ++ bottom /\
  text (createFallbackArt topic) = None /\
  jslength shown = Z.min (jslength topic) 20 /\
  length top = length mid /\ length bottom = length mid /\
  (LF ∉ topic -> lines (art (createFallbackArt topic)) = [top; mid; bottom]).
Proof.
  intros shown padded top mid bottom.
  assert (Hshown : displayableTopic topic = shown) by apply displayableTopic_take.
  assert (Hpad : paddedTopic topic = padded).
  { unfold paddedTopic. rewrite Hshown. reflexivity. }
  assert (Htop : topBorder topic = top).
  { unfold topBorder, repeatUnit, jslength. rewrite Hpad, Nat2Z.id. reflexivity. }
  assert (Hmid : middle topic = mid).
  { unfold middle. rewrite Hpad. reflexivity. }
  assert (Hbot : bottomBorder topic = bottom).
  { unfold bottomBorder, repeatUnit, jslength. rewrite Hpad, Nat2Z.id. reflexivity. }
  assert (Hart : art (createFallbackArt topic) = top ++ [LF] ++ mid ++ [LF] ++ bottom).
  { unfold createFallbackArt. cbn [art]. rewrite Htop, Hmid, Hbot. reflexivity. }
  split; [exact Hart|]. split; [reflexivity|]. split; [|split; [|split]].
  - subst shown. unfold jslength.
    destruct (Z.ltb_spec 20 (Z.of_nat (length topic))).
    + rewrite length_app, length_take. change (length (js "...")) with 3%nat. lia.
    + lia.
  - subst top mid. rewrite !length_app, length_replicate. simpl. lia.
  - subst bottom mid. rewrite !length_app, length_replicate. simpl. lia.
  - intros Hno. rewrite Hart. unfold lines.
    assert (LF ∉ top).
    { rewrite <- Htop. apply border_no_LF; discriminate. }
    assert (LF ∉ bottom).
    { rewrite <- Hbot. apply border_no_LF; discriminate. }
    assert (LF ∉ mid).
    { subst mid padded. rewrite <- Hshown.
      rewrite !elem_of_app, !list_elem_of_singleton.
      pose proof (displayableTopic_no_LF topic Hno).
      intros [?|[[?|[?|?]]|?]]; try discriminate; contradiction. }
    change (top ++ [LF] ++ mid ++ [LF] ++ bottom) with (top ++ LF :: (mid ++ LF :: bottom)).
    rewrite (linesFrom_first [] top) by assumption.
    rewrite (linesFrom_first [] mid) by assumption.
    rewrite linesFrom_no_LF by assumption. reflexivity.
Qed.

Lemma createFallbackArt_box_witness :
  lines (art (createFallbackArt (js "Entropy"))) =
    [ [boxTopLeft] ++ replicate 9 boxHorizontal ++ [boxTopRight];
      [boxVertical] ++ js " Entropy " ++ [boxVertical];
      [boxBottomLeft] ++ replicate 9 boxHorizontal ++ [boxBottomRight] ].
Proof.
  destruct (createFallbackArt_box (js "Entropy")) as (_ & _ & _ & _ & _ & Hlines).
  apply Hlines. vm_compute. intros Hin.
  repeat (apply elem_of_cons in Hin as [Hin|Hin]; [discriminate|]).
  inversion Hin.
Defined.

(** A topic of 21 code units is cut to 17 and three dots; one of 20 is not. *)
Example createFallbackArt_long :
  lines (art (createFallbackArt (js "Phenomenology of mind"))) =
    [ [boxTopLeft] ++ replicate 22 boxHorizontal ++ [boxTopRight];
      [boxVertical] ++ js " Phenomenology of ... " ++ [boxVertical];
      [boxBottomLeft] ++ replicate 22 boxHorizontal ++ [boxBottomRight] ]
  /\ middle (js "Journey and destinat") = [boxVertical] ++ js " Journey and destinat " ++ [boxVertical].
Proof. vm_compute. split; reflexivity. Qed.

(** ** The random button *)

Lemma findIndexFrom_unique {A} (p : A -> bool) (l : list A) (k : nat) (x : A) (i : Z) :
  l !! k = Some x ->
  p x = true ->
  (forall j y, l !! j = Some y -> p y = true -> j = k) ->
  findIndexFrom p l i = i + Z.of_nat k.
Proof.
  revert k i. induction l as [|a l IH]; intros k i Hk Hp Huniq; [discriminate|].
  simpl. destruct (p a) eqn:Hpa.
  - assert (0%nat = k) as <- by (apply (Huniq 0%nat a); auto). lia.
  - destruct k as [|k]; [simpl in Hk; congruence|].
    rewrite (IH k (i + 1)); [lia|exact Hk|exact Hp|].
    intros j y Hj Hy. specialize (Huniq (S j) y Hj Hy). lia.
Qed.

Lemma UNIQUE_WORDS_length : jslength UNIQUE_WORDS = 134.
Proof. vm_compute. reflexivity. Qed.

(** No word of the list is repeated, so the set keeps them all. *)
Lemma UNIQUE_WORDS_all : UNIQUE_WORDS = PREDEFINED_WORDS.
Proof. vm_compute. reflexivity. Qed.

Lemma UNIQUE_WORDS_ascii (w : jsstring) : w ∈ UNIQUE_WORDS -> Forall isAscii w.
Proof.
  assert (H : forallb (forallb (fun c => (c <? 128)%N)) UNIQUE_WORDS = true)
    by (vm_compute; reflexivity).
  intros Hw. rewrite forallb_forall in H.
  apply list_elem_of_In in Hw. specialize (H w Hw). rewrite forallb_forall in H.
  apply Forall_forall. intros c Hc. apply list_elem_of_In in Hc.
  apply N.ltb_lt. apply H. exact Hc.
Qed.

Lemma UNIQUE_WORDS_trimmed (w : jsstring) : w ∈ UNIQUE_WORDS -> trim w = w /\ w <> [].
Proof.
  assert (H : forallb (fun w => streq (trim w) w && truthy w) UNIQUE_WORDS = true)
    by (vm_compute; reflexivity).
  intros Hw. rewrite forallb_forall in H.
  apply list_elem_of_In in Hw. specialize (H w Hw).
  apply andb_true_iff in H as [H1 H2].
  split; [apply streq_true; exact H1|apply truthy_true; exact H2].
Qed.

(** The words stay distinct when case is ignored. *)
Lemma UNIQUE_WORDS_lower_NoDup : NoDup (asciiToLowerCase <$> UNIQUE_WORDS).
Proof.
  apply (bool_decide_unpack (NoDup (asciiToLowerCase <$> UNIQUE_WORDS))).
  vm_compute. exact I.
Qed.

Lemma UNIQUE_WORDS_lower_inj (j k : nat) (x y : jsstring) :
  UNIQUE_WORDS !! j = Some x -> UNIQUE_WORDS !! k = Some y ->
  asciiToLowerCase x = asciiToLowerCase y -> j = k.
Proof.
  intros Hj Hk Heq.
  apply (NoDup_lookup _ j k (asciiToLowerCase x) UNIQUE_WORDS_lower_NoDup).
  - rewrite list_lookup_fmap, Hj. reflexivity.
  - rewrite list_lookup_fmap, Hk, Heq. reflexivity.
Qed.

Section RandomTheorems.

Variable toLowerCase : jsstring -> jsstring.

(** On text of the Basic Latin range the host's [toLowerCase] maps the
    letters A to Z to a to z and nothing else. *)
Hypothesis toLowerCase_ascii :
  forall s, Forall isAscii s -> toLowerCase s = asciiToLowerCase s.

(** C10: whatever the current topic, [handleRandom] picks a word of the
    list whose lower case differs from the current topic's (the drawn
    word, or the next word of the list, cyclically, when the drawn one
    matches the current topic), and the push of that word takes effect:
    the history is cut after the cursor and extended by the word, which
    becomes current. *)
Theorem handleRandom_pushes (st : AppState) (cur : jsstring) (pick : Z) :
  -1 <= historyIndex (nav st) ->
  currentTopic (nav st) = Some cur ->
  0 <= pick < jslength UNIQUE_WORDS ->
  exists randomWord word nav',
    index UNIQUE_WORDS pick = Some randomWord /\
    word ∈ UNIQUE_WORDS /\
    toLowerCase word <> toLowerCase cur /\
    (toLowerCase randomWord <> toLowerCase cur -> word = randomWord) /\
    (toLowerCase randomWord = toLowerCase cur ->
       index UNIQUE_WORDS ((pick + 1) mod jslength UNIQUE_WORDS) = Some word) /\
    handleRandom toLowerCase st pick = Ok (mkApp nav' (mkDisplay [] [] [] true None None)) /\
    nav' <> nav st /\
    history nav' =
      take (Z.to_nat (historyIndex (nav st) + 1)) (history (nav st)) ++ [word] /\
    historyIndex nav' = jslength (history nav') - 1 /\
    currentTopic nav' = Some word.
Proof.
  intros Hidx Hcur Hpick. unfold handleRandom.
  pose proof UNIQUE_WORDS_length as Hlen.
  pose proof UNIQUE_WORDS_lower_inj as Hinj.
  pose proof UNIQUE_WORDS_trimmed as Htrimmed.
  assert (Hlow : forall w, w ∈ UNIQUE_WORDS -> toLowerCase w = asciiToLowerCase w)
    by (intros w Hw; apply toLowerCase_ascii, UNIQUE_WORDS_ascii, Hw).
  revert Hpick Hlen Hinj Htrimmed Hlow. generalize UNIQUE_WORDS as words.
  intros words Hpick Hlen Hinj Htrimmed Hlow.
  destruct (lookup_lt_is_Some_2 words (Z.to_nat pick)) as [randomWord Hrw].
  { unfold jslength in *. lia. }
  assert (Hirw : index words pick = Some randomWord)
    by (rewrite index_lookup by lia; exact Hrw).
  assert (Hrwin : randomWord ∈ words) by (apply (list_elem_of_lookup_2 _ _ _ Hrw)).
  (* what changeTopic does with a word of the list *)
  assert (Hpush : forall word, word ∈ words -> toLowerCase word <> toLowerCase cur ->
            exists nav',
              changeTopic toLowerCase (nav st) word = Ok nav' /\
              nav' <> nav st /\
              history nav' =
                take (Z.to_nat (historyIndex (nav st) + 1)) (history (nav st)) ++ [word] /\
              historyIndex nav' = jslength (history nav') - 1 /\
              currentTopic nav' = Some word).
  { intros word Hw Hne. destruct (Htrimmed word Hw) as [Htrim Hnil].
    eexists. split.
    - apply (changeTopic_push _ _ cur); rewrite ?Htrim; assumption.
    - rewrite Htrim. simpl. repeat split.
      intros Heq. rewrite <- Heq in Hcur. simpl in Hcur. congruence. }
  rewrite Hirw, Hcur.
  destruct (streq (toLowerCase randomWord) (toLowerCase cur)) eqn:Hsame.
  - apply streq_true in Hsame. unfold findIndex.
    rewrite (findIndexFrom_unique _ words (Z.to_nat pick) randomWord 0 Hrw).
    2:{ apply streq_true. reflexivity. }
    2:{ intros j y Hj Hy. apply streq_true in Hy.
        apply (Hinj j (Z.to_nat pick) y randomWord Hj Hrw).
        rewrite <- !Hlow by (eauto using list_elem_of_lookup_2). exact Hy. }
    rewrite Z.rem_mod_nonneg by lia.
    replace (0 + Z.of_nat (Z.to_nat pick) + 1) with (pick + 1) by lia.
    assert (Hnext : 0 <= (pick + 1) mod jslength words < jslength words)
      by (apply Z.mod_pos_bound; lia).
    destruct (lookup_lt_is_Some_2 words (Z.to_nat ((pick + 1) mod jslength words)))
      as [word Hword].
    { unfold jslength in *. lia. }
    assert (Hiw : index words ((pick + 1) mod jslength words) = Some word)
      by (rewrite index_lookup by lia; exact Hword).
    assert (Hwin : word ∈ words) by (apply (list_elem_of_lookup_2 _ _ _ Hword)).
    assert (Hdiff : toLowerCase word <> toLowerCase cur).
    { intros Heq. rewrite <- Hsame in Heq. rewrite !Hlow in Heq by assumption.
      pose proof (Hinj _ _ _ _ Hword Hrw Heq) as Hpos.
      apply Z2Nat.inj in Hpos; try lia.
      rewrite Hlen in *.
      destruct (Z.eq_dec (pick + 1) 134) as [E|E].
      - rewrite E, Z.mod_same in Hpos by lia. lia.
      - rewrite Z.mod_small in Hpos by lia. lia. }
    rewrite Hiw.
    destruct (Hpush word Hwin Hdiff) as (nav' & Hct & Hrest).
    exists randomWord, word, nav'. rewrite Hct.
    repeat split; try tauto; try apply Hrest; auto.
  - apply streq_false in Hsame.
    destruct (Hpush randomWord Hrwin Hsame) as (nav' & Hct & Hrest).
    exists randomWord, randomWord, nav'. rewrite Hct.
    repeat split; try tauto; try apply Hrest; auto.
Qed.

End RandomTheorems.

Lemma asciiToLowerCase_ascii (s : jsstring) :
  Forall isAscii s -> asciiToLowerCase s = asciiToLowerCase s.
Proof. reflexivity. Qed.

(** The draw falls on the current topic "Balance" (index 0): the next word,
    "Harmony", is pushed instead. *)
Lemma handleRandom_pushes_witness :
  handleRandom asciiToLowerCase
    (mkApp (mkNav [js "balance"] 0 (Some (js "balance")))
           (mkDisplay (js "text") [] [] false None None)) 0
  = Ok (mkApp (mkNav [js "balance"; js "Harmony"] 1 (Some (js "Harmony")))
              (mkDisplay [] [] [] true None None)).
Proof.
  destruct (handleRandom_pushes asciiToLowerCase asciiToLowerCase_ascii
              (mkApp (mkNav [js "balance"] 0 (Some (js "balance")))
                     (mkDisplay (js "text") [] [] false None None))
              (js "balance") 0)
    as (randomWord & word & nav' & _ & _ & _ & _ & _ & Hrun & _).
  - simpl. lia.
  - reflexivity.
  - vm_compute. split; [discriminate|reflexivity].
  - vm_compute. reflexivity.
Defined.

(** ** Searching and cutting strings *)

Lemma isPrefix_true (t s : jsstring) :
  isPrefix t s = true <-> exists after, s = t ++ after.
Proof.
  revert s. induction t as [|a t IH]; intros s; simpl.
  - split; [intros _; exists s; reflexivity|reflexivity].
  - destruct s as [|b s].
    + split; [discriminate|intros [after H]; discriminate].
    + rewrite andb_true_iff, N.eqb_eq, IH. split.
      * intros [-> [after ->]]. exists after. reflexivity.
      * intros [after H]. inversion H; subst. eauto.
Qed.

Lemma indexOfFrom_found (s t : jsstring) (i : Z) :
  0 <= i ->
  indexOfFrom s t i <> -1 ->
  exists before after,
    s = before ++ t ++ after /\
    indexOfFrom s t i = i + jslength before /\
    (forall k, (k < length before)%nat -> isPrefix t (drop k s) = false).
Proof.
  revert i. induction s as [|c s IH]; intros i Hi Hfound.
  - simpl in *. destruct (isPrefix t []) eqn:Hp; [|congruence].
    apply isPrefix_true in Hp as [after Hafter].
    exists [], after. simpl. unfold jslength. simpl.
    repeat split; [assumption|lia|intros k Hk; lia].
  - simpl in *. destruct (isPrefix t (c :: s)) eqn:Hp.
    + apply isPrefix_true in Hp as [after Hafter].
      exists [], after. simpl. unfold jslength. simpl.
      repeat split; [assumption|lia|intros k Hk; lia].
    + destruct (IH (i + 1)) as (before & after & Hs & Hr & Hfirst); [lia|assumption|].
      exists (c :: before), after. rewrite Hr. unfold jslength. simpl.
      repeat split; [rewrite Hs; reflexivity|lia|].
      intros [|k] Hk; simpl; [assumption|apply Hfirst; lia].
Qed.

Lemma indexOfFrom_absent (s t : jsstring) (i : Z) :
  indexOfFrom s t i = -1 -> 0 <= i -> ~ contains s t.
Proof.
  revert i. induction s as [|c s IH]; intros i Hr Hi (before & after & Hs).
  - simpl in Hr. destruct (isPrefix t []) eqn:Hp; [lia|].
    destruct before; [|discriminate]. simpl in Hs.
    assert (isPrefix t [] = true) by (apply isPrefix_true; eauto). congruence.
  - simpl in Hr. destruct (isPrefix t (c :: s)) eqn:Hp; [lia|].
    destruct before as [|b before].
    + assert (isPrefix t (c :: s) = true) by (apply isPrefix_true; eauto). congruence.
    + apply (IH (i + 1) Hr); [lia|]. inversion Hs; subst. exists before, after. reflexivity.
Qed.

(** [indexOf] finds the title exactly when the string contains it. *)
Lemma indexOf_absent (s t : jsstring) : indexOf s t = -1 <-> ~ contains s t.
Proof.
  split.
  - intros H. apply (indexOfFrom_absent s t 0 H). lia.
  - intros Hno. destruct (Z.eq_dec (indexOf s t) (-1)) as [|Hne]; [assumption|].
    destruct (indexOfFrom_found s t 0) as (before & after & Hs & _); [lia|exact Hne|].
    exfalso. apply Hno. exists before, after. exact Hs.
Qed.

(** The cut that [indexOf] and the two [substring] calls make: the text
    before the first occurrence, and the text after it. *)
Lemma indexOf_cut (s t : jsstring) :
  indexOf s t <> -1 ->
  exists before after,
    s = before ++ t ++ after /\
    substring s 0 (indexOf s t) = before /\
    substringFrom s (indexOf s t + jslength t) = after /\
    (forall before' after', s = before' ++ t ++ after' ->
       (length before <= length before')%nat).
Proof.
  intros Hfound.
  destruct (indexOfFrom_found s t 0) as (before & after & Hs & Hr & Hfirst); [lia|exact Hfound|].
  fold (indexOf s t) in Hr. exists before, after. rewrite Hr.
  pose proof (jslength_nonneg before). pose proof (jslength_nonneg t).
  pose proof (jslength_nonneg after).
  assert (Hlen : jslength s = jslength before + jslength t + jslength after)
    by (rewrite Hs, !jslength_app; lia).
  repeat split.
  - exact Hs.
  - rewrite substring_0_take by lia.
    replace (Z.to_nat (0 + jslength before)) with (length before) by (unfold jslength; lia).
    rewrite Hs. apply take_app_length.
  - unfold substringFrom, substring.
    rewrite (Z.max_l (0 + jslength before + jslength t)) by lia.
    rewrite (Z.min_l (0 + jslength before + jslength t)) by lia.
    rewrite (Z.max_l (jslength s)) by lia. rewrite (Z.min_l (jslength s)) by lia.
    rewrite Z.min_l by lia. rewrite Z.max_r by lia.
    replace (Z.to_nat (0 + jslength before + jslength t)) with (length (before ++ t))
      by (rewrite length_app; unfold jslength; lia).
    replace (Z.to_nat _) with (length after)
      by (rewrite Hlen; unfold jslength; lia).
    rewrite Hs, app_assoc, drop_app_length. apply firstn_all.
  - intros before' after' Hs'.
    destruct (Nat.le_gt_cases (length before) (length before')) as [|Hlt]; [assumption|].
    specialize (Hfirst (length before') Hlt).
    rewrite Hs', drop_app_length in Hfirst.
    assert (isPrefix t (t ++ after') = true) by (apply isPrefix_true; eauto).
    congruence.
Qed.

(** ** Tokens *)

Lemma splitRuns_concat (inSpace : bool) (cur s : jsstring) :
  concat (splitRuns inSpace cur s) = cur ++ s.
Proof.
  revert inSpace cur. induction s as [|c s IH]; intros inSpace cur; simpl.
  - destruct inSpace; simpl; rewrite ?app_nil_r; reflexivity.
  - destruct (isWhiteSpace c), inSpace; simpl; rewrite IH; simpl;
      rewrite <- ?app_assoc; reflexivity.
Qed.

(** The pieces of [split] put together give the text back. *)
Lemma splitWhitespace_concat (text : jsstring) :
  concat (splitWhitespace text) = text.
Proof. apply splitRuns_concat. Qed.

Lemma trimStart_nil (s : jsstring) :
  trimStart s = [] <-> forallb isWhiteSpace s = true.
Proof.
  induction s as [|c s IH]; simpl; [tauto|].
  destruct (isWhiteSpace c); simpl; [exact IH|]. split; discriminate.
Qed.

Lemma trimStart_head (s r : jsstring) (c : N) :
  trimStart s = c :: r -> isWhiteSpace c = false.
Proof.
  induction s as [|a s IH]; simpl; [discriminate|].
  destruct (isWhiteSpace a) eqn:Ha; [exact IH|].
  intros E. inversion E; subst. exact Ha.
Qed.

(** [part.trim() === ''] holds of the parts made of white space only, the
    empty part among them. *)
Lemma trim_nil (s : jsstring) :
  trim s = [] <-> forallb isWhiteSpace s = true.
Proof.
  rewrite <- trimStart_nil. unfold trim, trimEnd. split.
  - intros H. destruct (trimStart s) as [|c r] eqn:Hs; [reflexivity|].
    apply (f_equal (@rev N)) in H. rewrite rev_involutive in H.
    change (rev []) with (@nil N) in H.
    apply trimStart_nil in H. rewrite forallb_forall in H.
    assert (Hc : isWhiteSpace c = true).
    { apply H. apply in_rev. rewrite rev_involutive. left. reflexivity. }
    rewrite (trimStart_head s r c Hs) in Hc. discriminate.
  - intros ->. reflexivity.
Qed.

Lemma splitRuns_alternates (inSpace : bool) (cur s : jsstring) :
  (if inSpace then cur <> [] /\ forallb isWhiteSpace cur = true
   else forallb (fun c => negb (isWhiteSpace c)) cur = true) ->
  alternates inSpace (splitRuns inSpace cur s) /\
  Nat.Odd (length (splitRuns inSpace cur s) + (if inSpace then 1 else 0)).
Proof.
  revert inSpace cur. induction s as [|c s IH]; intros inSpace cur Hcur.
  - destruct inSpace; simpl; repeat split; try tauto; try discriminate.
    + exists 1%nat. reflexivity.
    + exists 0%nat. reflexivity.
  - simpl. destruct (isWhiteSpace c) eqn:Hc, inSpace.
    + apply IH. destruct Hcur as [Hne Hall]. split.
      * intros E. apply app_eq_nil in E as [_ E]. discriminate.
      * rewrite forallb_app, Hall. simpl. rewrite Hc. reflexivity.
    + destruct (IH true [c]) as (Ha & Ho).
      { split; [discriminate|]. simpl. rewrite Hc. reflexivity. }
      simpl. repeat split; try assumption.
      destruct Ho as [k Hk]. exists k. lia.
    + destruct (IH false [c]) as (Ha & Ho).
      { simpl. rewrite Hc. reflexivity. }
      simpl. repeat split; try tauto.
      destruct Ho as [k Hk]. exists (S k). lia.
    + apply IH. rewrite forallb_app, Hcur. simpl. rewrite Hc. reflexivity.
Qed.

(** [split] cuts the text into an odd number of pieces that take turns,
    starting and ending with text free of white space. *)
Lemma splitWhitespace_tokens (text : jsstring) :
  concat (splitWhitespace text) = text /\
  alternates false (splitWhitespace text) /\
  Nat.Odd (length (splitWhitespace text)).
Proof.
  split; [apply splitWhitespace_concat|].
  destruct (splitRuns_alternates false [] text) as (Ha & Ho); [reflexivity|].
  split; [exact Ha|]. unfold splitWhitespace. rewrite Nat.add_0_r in Ho. exact Ho.
Qed.

(** The match of [/[.,!?;:]+$/] is the whole run of punctuation that ends
    the part: what is left does not end with punctuation. *)
Lemma matchTrailingPunctuation_some (s p : jsstring) :
  matchTrailingPunctuation s = Some p ->
  exists w,
    s = w ++ p /\ p <> [] /\ forallb isPunctuation p = true /\
    (forall w' c, w = w' ++ [c] -> isPunctuation c = false).
Proof.
  induction s as [|a s IH]; [discriminate|].
  cbn [matchTrailingPunctuation].
  destruct (forallb isPunctuation (a :: s)) eqn:Hall.
  - intros E. inversion E; subst. exists []. repeat split; try assumption; try discriminate.
    intros w' c Hw. destruct w'; discriminate.
  - intros Hm. destruct (IH Hm) as (w & Hs & Hne & Hp & Hlast).
    exists (a :: w). subst s. repeat split; try assumption.
    intros w' c Hw. destruct w' as [|a' w'].
    + simpl in Hw. inversion Hw; subst. simpl in Hall. rewrite Hp in Hall.
      rewrite andb_true_r in Hall. exact Hall.
    + simpl in Hw. inversion Hw; subst. apply (Hlast w' c). reflexivity.
Qed.

Lemma matchTrailingPunctuation_none (s : jsstring) :
  matchTrailingPunctuation s = None ->
  forall w c, s = w ++ [c] -> isPunctuation c = false.
Proof.
  induction s as [|a s IH]; intros Hm w c Hs.
  - destruct w; discriminate.
  - cbn [matchTrailingPunctuation] in Hm.
    destruct (forallb isPunctuation (a :: s)) eqn:Hall; [discriminate|].
    destruct w as [|a' w].
    + simpl in Hs. inversion Hs; subst. simpl in Hall. rewrite andb_true_r in Hall. exact Hall.
    + simpl in Hs. inversion Hs; subst. apply (IH Hm w c). reflexivity.
Qed.

(** A part is its word followed by its punctuation. *)
Lemma word_punctuation (part : jsstring) :
  part = wordOf part ++ punctuationOf part /\
  forallb isPunctuation (punctuationOf part) = true /\
  (forall w c, wordOf part = w ++ [c] -> isPunctuation c = false).
Proof.
  unfold wordOf, punctuationOf.
  destruct (matchTrailingPunctuation part) as [p|] eqn:Hm.
  - destruct (matchTrailingPunctuation_some part p Hm) as (w & Hs & Hne & Hp & Hlast).
    apply truthy_true in Hne as Ht. rewrite Ht. subst part.
    rewrite slice_0_neg by assumption. auto.
  - simpl. rewrite app_nil_r. repeat split.
    apply matchTrailingPunctuation_none. exact Hm.
Qed.

Section RendererFacts.

Variable toLowerCase : jsstring -> jsstring.

Lemma renderPart_text (b : baseKey) (i : nat) (part : jsstring) :
  elementText (renderPart toLowerCase b i part) = part.
Proof.
  unfold renderPart. destruct (streq (trim part) []).
  - simpl. apply app_nil_r.
  - destruct (bool_decide _ || streq _ _); simpl.
    + apply app_nil_r.
    + rewrite app_nil_r. symmetry. apply word_punctuation.
Qed.

Lemma renderPartsFrom_text (b : baseKey) (i : nat) (parts : list jsstring) :
  visibleText (renderPartsFrom toLowerCase b i parts) = concat parts.
Proof.
  revert i. induction parts as [|part parts IH]; intros i; [reflexivity|].
  unfold visibleText in *. simpl. rewrite renderPart_text, IH. reflexivity.
Qed.

Lemma renderPartsFrom_lookup (b : baseKey) (k i : nat) (parts : list jsstring) :
  renderPartsFrom toLowerCase b k parts !! i =
    renderPart toLowerCase b (k + i) <$> parts !! i.
Proof.
  revert k i. induction parts as [|part parts IH]; intros k i; [reflexivity|].
  destruct i as [|i]; simpl.
  - rewrite Nat.add_0_r. reflexivity.
  - rewrite IH. replace (S k + i)%nat with (k + S i)%nat by lia. reflexivity.
Qed.

(** The words of a text read back as the text. *)
Lemma renderInteractiveWords_text (text : jsstring) (b : baseKey) :
  visibleText (renderInteractiveWords toLowerCase text b) = text.
Proof.
  unfold renderInteractiveWords. rewrite renderPartsFrom_text.
  apply splitWhitespace_concat.
Qed.

End RendererFacts.

(** ** The link-splicing pass *)

Lemma insertSorted_perm (x : Link) (l : list Link) :
  Permutation (insertSorted x l) (x :: l).
Proof.
  induction l as [|y l IH]; simpl; [reflexivity|].
  destruct (compareLinks x y <=? 0); [reflexivity|].
  rewrite IH. apply perm_swap.
Qed.

Lemma sortLinks_perm (links : list Link) : Permutation (sortLinks links) links.
Proof.
  induction links as [|x links IH]; simpl; [reflexivity|].
  rewrite insertSorted_perm. apply perm_skip. exact IH.
Qed.

Lemma insertSorted_sorted (x : Link) (l : list Link) :
  StronglySorted longerFirst l -> StronglySorted longerFirst (insertSorted x l).
Proof.
  induction 1 as [|y l Hl IH Hy]; simpl.
  - constructor; [constructor|constructor].
  - unfold compareLinks. destruct (Z.leb_spec (jslength (title y) - jslength (title x)) 0).
    + constructor; [constructor; assumption|].
      constructor; [unfold longerFirst; lia|].
      eapply Forall_impl; [exact Hy|]. unfold longerFirst. intros z Hz. lia.
    + constructor; [exact IH|].
      rewrite insertSorted_perm. constructor; [unfold longerFirst; lia|exact Hy].
Qed.

Lemma sortLinks_sorted (links : list Link) : StronglySorted longerFirst (sortLinks links).
Proof.
  induction links as [|x links IH]; simpl; [constructor|].
  apply insertSorted_sorted. exact IH.
Qed.

(** Once the flag is set the callback returns every entry as it is. *)
Lemma embedLink_after (link : Link) (parts : list part) :
  embedLink link true parts = (parts, true).
Proof.
  induction parts as [|p parts IH]; [reflexivity|].
  destruct p; cbn [embedLink embedInPart]; rewrite IH; reflexivity.
Qed.

Lemma embedLink_cases (link : Link) (parts : list part) :
  (embedLink link false parts = (parts, false) /\
   forall s, PString s ∈ parts -> ~ contains s (title link))
  \/
  (exists mid, embedLink link false parts = (mid, true) /\ placedAt link parts mid).
Proof.
  induction parts as [|p parts IH].
  - left. split; [reflexivity|]. intros s Hs. inversion Hs.
  - destruct p as [s|e].
    + cbn [embedLink embedInPart].
      destruct (Z.eqb_spec (indexOf s (title link)) (-1)) as [Hno|Hyes].
      * apply indexOf_absent in Hno.
        destruct IH as [[Hrun Hnone]|(mid & Hrun & Hplaced)]; rewrite Hrun.
        -- left. split; [reflexivity|]. intros s' Hs'.
           apply elem_of_cons in Hs' as [E|Hs']; [inversion E; subst; exact Hno|auto].
        -- right. exists (PString s :: mid). split; [reflexivity|].
           destruct Hplaced as [pre post s0 before after Hpre Hs0 Hfirst].
           apply (placedAt_intro link (PString s :: pre) post s0 before after); auto.
           intros s' Hs'. apply elem_of_cons in Hs' as [E|Hs']; [inversion E; subst; exact Hno|auto].
      * right. rewrite embedLink_after.
        destruct (indexOf_cut s (title link) Hyes) as (before & after & Hs & Hb & Ha & Hfirst).
        rewrite Hb, Ha. eexists. split; [reflexivity|].
        apply (placedAt_intro link [] parts s before after); auto.
        intros s' Hs'. inversion Hs'.
    + cbn [embedLink embedInPart].
      destruct IH as [[Hrun Hnone]|(mid & Hrun & Hplaced)]; rewrite Hrun.
      * left. split; [reflexivity|]. intros s' Hs'.
        apply elem_of_cons in Hs' as [E|Hs']; [discriminate|auto].
      * right. exists (PElement e :: mid). split; [reflexivity|].
        destruct Hplaced as [pre post s0 before after Hpre Hs0 Hfirst].
        apply (placedAt_intro link (PElement e :: pre) post s0 before after); auto.
        intros s' Hs'. apply elem_of_cons in Hs' as [E|Hs']; [discriminate|auto].
Qed.

(** The loop does what the pass is specified to do. *)
Lemma embedLinks_linkPass (usedLinks : gset jsstring) (sortedLinks : list Link)
    (parts : list part) (calls : list jsstring) :
  linkPass usedLinks sortedLinks parts calls
    (embedLinks usedLinks sortedLinks parts calls).1
    (embedLinks usedLinks sortedLinks parts calls).2.
Proof.
  revert parts calls. induction sortedLinks as [|link rest IH]; intros parts calls.
  - constructor.
  - cbn [embedLinks]. destruct (bool_decide (url link ∈ usedLinks)) eqn:Hused.
    + apply bool_decide_eq_true in Hused. apply linkPass_used; auto.
    + apply bool_decide_eq_false in Hused.
      destruct (embedLink_cases link parts) as [[Hrun Hnone]|(mid & Hrun & Hplaced)];
        rewrite Hrun.
      * apply linkPass_absent; auto.
      * eapply linkPass_placed; eauto.
Qed.

Lemma placedAt_text (link : Link) (parts mid : list part) :
  placedAt link parts mid -> concat (map partText mid) = concat (map partText parts).
Proof.
  intros [pre post s before after _ Hs _].
  rewrite !map_app, !concat_app. f_equal. simpl. rewrite Hs. f_equal.
  unfold splice. destruct before, after; simpl; rewrite ?app_nil_r; reflexivity.
Qed.

Lemma placedAt_anchors (link : Link) (parts mid : list part) :
  placedAt link parts mid ->
  Permutation (anchorsOf mid) (anchorsOf parts ++ [anchorOf link]).
Proof.
  intros [pre post s before after _ _ _]. unfold anchorsOf.
  rewrite !omap_app. simpl.
  assert (E : omap (fun p => match p with PElement e => Some e | PString _ => None end)
                (splice link before after) = [anchorOf link]).
  { unfold splice. destruct before, after; reflexivity. }
  rewrite E. rewrite <- app_assoc.
  apply Permutation_app_head. apply Permutation_app_comm.
Qed.

Lemma linkPass_text usedLinks sortedLinks parts calls parts' calls' :
  linkPass usedLinks sortedLinks parts calls parts' calls' ->
  concat (map partText parts') = concat (map partText parts).
Proof.
  induction 1 as [| | |link rest parts mid calls parts' calls' _ Hplaced _ IH]; auto.
  rewrite IH. apply (placedAt_text link). exact Hplaced.
Qed.

(** The anchors that the pass adds answer one to one to links that were
    taken, in the order they were taken, and these are the links reported. *)
Lemma linkPass_anchors usedLinks sortedLinks parts calls parts' calls' :
  linkPass usedLinks sortedLinks parts calls parts' calls' ->
  exists placedLinks,
    sublist placedLinks sortedLinks /\
    Forall (fun link => url link ∉ usedLinks) placedLinks /\
    Permutation (anchorsOf parts') (anchorsOf parts ++ map anchorOf placedLinks) /\
    calls' = calls ++ map url placedLinks.
Proof.
  induction 1 as [parts calls
                 |link rest parts calls parts' calls' Hused _ IH
                 |link rest parts calls parts' calls' Hunused Hnone _ IH
                 |link rest parts mid calls parts' calls' Hunused Hplaced _ IH].
  - exists []. simpl. rewrite !app_nil_r.
    split; [apply sublist_nil|]. split; [constructor|]. split; reflexivity.
  - destruct IH as (pl & Hsub & Hall & Hperm & Hcalls).
    exists pl. repeat split; auto. apply sublist_cons. exact Hsub.
  - destruct IH as (pl & Hsub & Hall & Hperm & Hcalls).
    exists pl. repeat split; auto. apply sublist_cons. exact Hsub.
  - destruct IH as (pl & Hsub & Hall & Hperm & Hcalls).
    exists (link :: pl). repeat split.
    + apply sublist_skip. exact Hsub.
    + constructor; assumption.
    + rewrite Hperm. rewrite (placedAt_anchors link parts mid Hplaced).
      simpl. rewrite <- app_assoc. reflexivity.
    + rewrite Hcalls. simpl. rewrite <- app_assoc. reflexivity.
Qed.

(** ** The renderer *)

Section RendererTheorems.

Variable toLowerCase : jsstring -> jsstring.

Lemma renderContentParts_text (i : nat) (parts : list part) :
  visibleText (renderContentParts toLowerCase i parts) = concat (map partText parts).
Proof.
  revert i. induction parts as [|p parts IH]; intros i; [reflexivity|].
  destruct p as [s|e]; cbn [renderContentParts]; unfold visibleText in *.
  - rewrite map_app, concat_app, IH. simpl. f_equal.
    apply (renderInteractiveWords_text toLowerCase).
  - simpl. rewrite IH. reflexivity.
Qed.

(** C1: whatever the text, the links and the set of used URLs, the visible
    text of the elements that [InteractiveContent] renders, put together in
    order, is the text it was given: the link pass keeps the text of the
    parts, and every string part is rendered as words that read back as
    the part. *)
Theorem InteractiveContent_round_trip (content : jsstring) (links : list Link)
    (usedLinks : gset jsstring) :
  visibleText (InteractiveContent toLowerCase content links usedLinks).1 = content /\
  concat (map partText (embedLinks usedLinks (sortLinks links) [PString content] []).1)
    = content.
Proof.
  pose proof (embedLinks_linkPass usedLinks (sortLinks links) [PString content] []) as Hpass.
  apply linkPass_text in Hpass. simpl in Hpass. rewrite app_nil_r in Hpass.
  split; [|exact Hpass].
  unfold InteractiveContent.
  destruct (embedLinks usedLinks (sortLinks links) [PString content] []) as [parts calls].
  simpl in *. rewrite renderContentParts_text. exact Hpass.
Qed.

(** C3: the links are taken longest title first; a link whose URL is in
    the used set is skipped; every other link is embedded at most once, at
    the first occurrence of its title in the first text fragment that
    contains it, the fragment giving way to the pieces before, anchor and
    after.  The anchors of the result answer one to one to a sub-list of
    the sorted links, none of them used, and these are the URLs given to
    [onLinkUsed]. *)
Theorem link_pass_spec (content : jsstring) (links : list Link) (usedLinks : gset jsstring) :
  Permutation (sortLinks links) links /\
  StronglySorted longerFirst (sortLinks links) /\
  exists parts calls placedLinks,
    InteractiveContent toLowerCase content links usedLinks
      = (renderContentParts toLowerCase 0 parts, calls) /\
    linkPass usedLinks (sortLinks links) [PString content] [] parts calls /\
    sublist placedLinks (sortLinks links) /\
    Forall (fun link => url link ∉ usedLinks) placedLinks /\
    Permutation (anchorsOf parts) (map anchorOf placedLinks) /\
    calls = map url placedLinks.
Proof.
  split; [apply sortLinks_perm|]. split; [apply sortLinks_sorted|].
  pose proof (embedLinks_linkPass usedLinks (sortLinks links) [PString content] []) as Hpass.
  unfold InteractiveContent.
  destruct (embedLinks usedLinks (sortLinks links) [PString content] []) as [parts calls].
  simpl in Hpass.
  destruct (linkPass_anchors _ _ _ _ _ _ Hpass) as (placedLinks & Hsub & Hall & Hperm & Hcalls).
  exists parts, calls, placedLinks. repeat split; assumption.
Qed.

(** C4: a part of the split that is not white space is its word followed by
    the whole run of [.,!?;:] that ends it.  When the word in lower case is
    a stop word, or the word is empty, the part is rendered as plain text
    and no click reaches [onWordClick]; otherwise the word is a button
    that sends the word, as written, to [onWordClick], and the punctuation
    follows the button as text. *)
Theorem renderInteractiveWords_tokens (text : jsstring) (b : baseKey) (i : nat)
    (part : jsstring) :
  splitWhitespace text !! i = Some part ->
  forallb isWhiteSpace part = false ->
  exists word punctuation,
    part = word ++ punctuation /\
    forallb isPunctuation punctuation = true /\
    (forall w c, word = w ++ [c] -> isPunctuation c = false) /\
    renderInteractiveWords toLowerCase text b !! i = Some (renderPart toLowerCase b i part) /\
    (toLowerCase word ∈ STOP_WORDS \/ word = [] ->
       renderPart toLowerCase b i part = Fragment (WordKey b i) [Text part] /\
       clickWords (renderPart toLowerCase b i part) = []) /\
    ((toLowerCase word ∉ STOP_WORDS) /\ word <> [] ->
       renderPart toLowerCase b i part =
         Fragment (WordKey b i)
           [Button word (js "Learn more about " ++ word) word; Text punctuation] /\
       clickWords (renderPart toLowerCase b i part) = [word]).
Proof.
  intros Hpart Hnw.
  destruct (word_punctuation part) as (Hsplit & Hpunct & Hlast).
  exists (wordOf part), (punctuationOf part).
  split; [exact Hsplit|]. split; [exact Hpunct|]. split; [exact Hlast|].
  split.
  { unfold renderInteractiveWords. rewrite renderPartsFrom_lookup, Hpart. reflexivity. }
  assert (Htrim : streq (trim part) [] = false).
  { apply streq_false. intros E. apply trim_nil in E. congruence. }
  unfold renderPart. rewrite Htrim. split.
  - intros Hstop.
    assert (bool_decide (toLowerCase (wordOf part) ∈ STOP_WORDS) || streq (wordOf part) [] = true)
      as ->.
    { apply orb_true_iff. destruct Hstop as [H|H].
      - left. apply bool_decide_eq_true. exact H.
      - right. apply streq_true. exact H. }
    split; reflexivity.
  - intros [Hnot Hne].
    assert (bool_decide (toLowerCase (wordOf part) ∈ STOP_WORDS) || streq (wordOf part) [] = false)
      as ->.
    { apply orb_false_iff. split.
      - apply bool_decide_eq_false. exact Hnot.
      - apply streq_false. exact Hne. }
    split; reflexivity.
Qed.

End RendererTheorems.

(** The specification's example: in "The cat, runs fast." the stop word is
    plain, "cat" is a button followed by the comma, and the click on it
    sends "cat". *)
Example render_the_cat :
  renderInteractiveWords asciiToLowerCase (js "The cat, runs fast.") FallbackKey =
    [ Fragment (WordKey FallbackKey 0) [Text (js "The")];
      Fragment (SpaceKey FallbackKey 1) [Text (js " ")];
      Fragment (WordKey FallbackKey 2)
        [Button (js "cat") (js "Learn more about cat") (js "cat"); Text (js ",")];
      Fragment (SpaceKey FallbackKey 3) [Text (js " ")];
      Fragment (WordKey FallbackKey 4)
        [Button (js "runs") (js "Learn more about runs") (js "runs"); Text []];
      Fragment (SpaceKey FallbackKey 5) [Text (js " ")];
      Fragment (WordKey FallbackKey 6)
        [Button (js "fast") (js "Learn more about fast") (js "fast"); Text (js ".")] ].
Proof. vm_compute. reflexivity. Qed.

(** Only the punctuation that ends a part is split off: a stop word with a
    bracket before it is a word of its own, and is a button. *)
Example render_leading_punctuation :
  renderInteractiveWords asciiToLowerCase (js "the, (the)") FallbackKey =
    [ Fragment (WordKey FallbackKey 0) [Text (js "the,")];
      Fragment (SpaceKey FallbackKey 1) [Text (js " ")];
      Fragment (WordKey FallbackKey 2)
        [Button (js "(the)") (js "Learn more about (the)") (js "(the)"); Text []] ].
Proof. vm_compute. reflexivity. Qed.

(** A title that occurs twice is embedded at its first occurrence only, and
    the longer title is placed before the shorter one is looked for. *)
Example embed_once :
  (embedLinks ∅
     (sortLinks [mkLink (js "u1") (js "AI"); mkLink (js "u2") (js "Artificial Intelligence")])
     [PString (js "AI and Artificial Intelligence and AI")] [])
  = ([ PElement (Anchor (js "u1") (UrlKey (js "u1")) (js "AI"));
       PString (js " and ");
       PElement (Anchor (js "u2") (UrlKey (js "u2")) (js "Artificial Intelligence"));
       PString (js " and AI") ],
     [js "u2"; js "u1"]).
Proof. vm_compute. reflexivity. Qed.

Lemma renderInteractiveWords_tokens_witness :
  renderPart asciiToLowerCase FallbackKey 2 (js "cat,") =
    Fragment (WordKey FallbackKey 2)
      [Button (js "cat") (js "Learn more about cat") (js "cat"); Text (js ",")].
Proof.
  destruct (renderInteractiveWords_tokens asciiToLowerCase (js "The cat, runs fast.")
              FallbackKey 2 (js "cat,"))
    as (word & punctuation & Hsplit & Hpunct & Hlast & _ & _ & Hbutton).
  - vm_compute. reflexivity.
  - vm_compute. reflexivity.
  - vm_compute. reflexivity.
Defined.

(** ** The structured answer *)

Section StructuredAnswerTheorems.

Variable engineMessage : exn -> jsstring.

Lemma checkParsed_accepted (v : json) :
  accepted v = true -> checkParsed (Parsed v) = Ok v.
Proof.
  destruct v as [| | | | |members]; try discriminate.
  unfold accepted. rewrite !andb_true_iff. intros [[He Hs] Hl].
  unfold checkParsed, getProp. rewrite He, Hs, Hl. reflexivity.
Qed.

Lemma checkParsed_rejected (r : responseText) :
  (forall v, r = Parsed v -> accepted v = false) ->
  exists e, checkParsed r = Throw e.
Proof.
  intros Hrej. destruct r as [| |v]; simpl; eauto.
  specialize (Hrej v eq_refl).
  destruct v as [| | | | |members]; simpl; eauto.
  unfold accepted in Hrej.
  destruct (truthyValue (member (js "explanation") members)); simpl in *; eauto.
  destruct (truthyValue (member (js "suggestion") members)); simpl in *; eauto.
  rewrite Hrej. simpl. eauto.
Qed.

(** C9, as the code has it: [getStructuredAnswer] returns a response
    exactly when the key is configured, the request resolved, the text
    parsed, and the parsed value is an object with a truthy [explanation],
    a truthy [suggestion] and an array as [links]; it is then returned as
    parsed.  In every other case (no text, text that is not JSON, [null], a
    top-level field absent or empty, [links] not an array) it throws an
    [Error].  Nothing is asked of the entries of [links] or of their
    number. *)
Theorem getStructuredAnswer_check (apiKey : option jsstring) (topic : jsstring)
    (outcome : apiOutcome) :
  (forall v,
      getStructuredAnswer engineMessage apiKey topic outcome = Ok v <->
      keyConfigured apiKey = true /\ outcome = Resolved (Parsed v) /\ accepted v = true) /\
  ((exists v, getStructuredAnswer engineMessage apiKey topic outcome = Ok v) \/
   (exists message, getStructuredAnswer engineMessage apiKey topic outcome = Throw (Error message))).
Proof.
  unfold getStructuredAnswer. fold (keyConfigured apiKey).
  destruct (keyConfigured apiKey); simpl.
  2:{ split; [|right; eauto]. intros v. split; [discriminate|]. intros [? _]. discriminate. }
  destruct outcome as [[e|]|r].
  - split; [|right; eauto]. intros v. split; [discriminate|]. intros (_ & ? & _). discriminate.
  - split; [|right; eauto]. intros v. split; [discriminate|]. intros (_ & ? & _). discriminate.
  - destruct (checkParsed r) as [v0|e] eqn:Hcheck.
    + split; [|left; eauto]. intros v. split.
      * intros E. inversion E; subst v0. split; [reflexivity|].
        destruct r as [| |v1]; try discriminate.
        destruct (accepted v1) eqn:Hacc.
        -- rewrite (checkParsed_accepted v1 Hacc) in Hcheck. inversion Hcheck; subst. auto.
        -- destruct (checkParsed_rejected (Parsed v1)) as [e He].
           { intros v2 E2. inversion E2; subst. exact Hacc. }
           congruence.
      * intros (_ & E & Hacc). inversion E; subst r.
        rewrite (checkParsed_accepted v Hacc) in Hcheck. congruence.
    + split; [|right; eauto]. intros v. split; [discriminate|].
      intros (_ & E & Hacc). inversion E; subst r.
      rewrite (checkParsed_accepted v Hacc) in Hcheck. discriminate.
Qed.

End StructuredAnswerTheorems.

(** C9 as stated fails: a response with three links of which one has no
    [url] lacks a required field, and is returned. *)
Lemma getStructuredAnswer_returns_incomplete :
  let link := JObject [(js "title", JString (js "entropy")); (js "url", JString (js "https://example.org/entropy"))] in
  let broken := JObject [(js "title", JString (js "disorder"))] in
  let response :=
    JObject [(js "explanation", JString (js "Entropy measures disorder."));
             (js "suggestion", JString (js "Read about entropy."));
             (js "links", JArray [link; broken; link])] in
  malformedOrIncomplete (Parsed response) = true /\
  getStructuredAnswer (fun _ => js "engine") (Some (js "key")) (js "Entropy")
    (Resolved (Parsed response)) = Ok response.
Proof. vm_compute. split; reflexivity. Qed.

(** Neither the number of links nor the type of a field is checked. *)
Example getStructuredAnswer_returns_no_links :
  let response :=
    JObject [(js "explanation", JNumber 5); (js "suggestion", JBool true);
             (js "links", JArray [])] in
  malformedOrIncomplete (Parsed response) = true /\
  getStructuredAnswer (fun _ => js "engine") (Some (js "key")) (js "Entropy")
    (Resolved (Parsed response)) = Ok response.
Proof. vm_compute. split; reflexivity. Qed.

(** Text that is not JSON, and an empty top-level field, do make the call
    throw, with the message of the cause after the fixed prefix. *)
Example getStructuredAnswer_throws :
  getStructuredAnswer (fun _ => js "Unexpected token") (Some (js "key")) (js "Entropy")
    (Resolved Unparsable)
    = Throw (Error (js "Could not generate content for " ++ [34%N] ++ js "Entropy"
                      ++ [34%N] ++ js ". Unexpected token"))
  /\ getStructuredAnswer (fun _ => js "engine") (Some (js "key")) (js "Entropy")
       (Resolved (Parsed (JObject [(js "explanation", JString []);
                                   (js "suggestion", JString (js "s"));
                                   (js "links", JArray [])])))
    = Throw (Error (js "Could not generate content for " ++ [34%N] ++ js "Entropy"
                      ++ [34%N] ++ js ". Invalid response structure received from API.")).
Proof. vm_compute. split; reflexivity. Qed.

(** * Further properties *)

(** ** Trimming *)

Lemma trimStart_split (s : jsstring) :
  exists w, s = w ++ trimStart s /\ forallb isWhiteSpace w = true.
Proof.
  induction s as [|c s (w & Hs & Hw)]; [exists []; split; reflexivity|].
  simpl. destruct (isWhiteSpace c) eqn:Hc.
  - exists (c :: w). simpl. rewrite Hc, Hw. split; [f_equal; exact Hs|reflexivity].
  - exists []. split; reflexivity.
Qed.

Lemma trimStart_fixed (s : jsstring) :
  trimStart s = s <-> forall c r, s = c :: r -> isWhiteSpace c = false.
Proof.
  split.
  - intros Hs c r E. apply (trimStart_head s r c). rewrite Hs. exact E.
  - intros H. destruct s as [|c r]; [reflexivity|].
    simpl. rewrite (H c r eq_refl). reflexivity.
Qed.

Lemma trimStart_idem (s : jsstring) : trimStart (trimStart s) = trimStart s.
Proof.
  apply trimStart_fixed. intros c r E. apply (trimStart_head s r c E).
Qed.

Lemma trimEnd_split (s : jsstring) :
  exists w, s = trimEnd s ++ w /\ forallb isWhiteSpace w = true.
Proof.
  destruct (trimStart_split (rev s)) as (w & Hs & Hw).
  exists (rev w). split.
  - unfold trimEnd. rewrite <- rev_app_distr, <- Hs, rev_involutive. reflexivity.
  - rewrite forallb_forall in *. intros c Hc. apply Hw. apply in_rev. exact Hc.
Qed.

Lemma trimEnd_idem (s : jsstring) : trimEnd (trimEnd s) = trimEnd s.
Proof.
  unfold trimEnd. rewrite rev_involutive, trimStart_idem. reflexivity.
Qed.

(** Cutting the end off does not bring white space to the start. *)
Lemma trimStart_trimEnd (s : jsstring) :
  trimStart s = s -> trimStart (trimEnd s) = trimEnd s.
Proof.
  intros Hs. apply trimStart_fixed. intros c r E.
  destruct (trimEnd_split s) as (w & Hsplit & _).
  rewrite E in Hsplit. apply (proj1 (trimStart_fixed s) Hs c (r ++ w)). exact Hsplit.
Qed.

(** [trim] leaves a trimmed string as it is. *)
Lemma trim_idem (s : jsstring) : trim (trim s) = trim s.
Proof.
  unfold trim.
  rewrite (trimStart_trimEnd (trimStart s)) by apply trimStart_idem.
  apply trimEnd_idem.
Qed.

(** Text without white space is trimmed. *)
Lemma trim_no_space (s : jsstring) :
  forallb (fun c => negb (isWhiteSpace c)) s = true -> trim s = s.
Proof.
  intros Hs. rewrite forallb_forall in Hs.
  assert (Hstart : forall u, (forall c, In c u -> negb (isWhiteSpace c) = true) ->
                             trimStart u = u).
  { intros u Hu. apply trimStart_fixed. intros c r E.
    apply negb_true_iff. apply Hu. rewrite E. left. reflexivity. }
  unfold trim, trimEnd. rewrite (Hstart s Hs).
  rewrite Hstart; [apply rev_involutive|].
  intros c Hc. apply Hs. apply in_rev. exact Hc.
Qed.

(** ** Navigation: the shape of the history *)

Section NavigationShape.

Variable toLowerCase : jsstring -> jsstring.

Lemma initialNav_wf : historyWellFormed toLowerCase initialNav.
Proof.
  unfold historyWellFormed, initialNav. simpl.
  split; [tauto|]. split; [constructor|].
  intros i a b Ha. destruct i; discriminate.
Qed.

Lemma changeTopic_wf (st st' : NavState) (newTopic : jsstring) :
  navInv st -> historyWellFormed toLowerCase st ->
  changeTopic toLowerCase st newTopic = Ok st' ->
  historyWellFormed toLowerCase st'.
Proof.
  intros [Hrange Hcur] (Hempty & Htopics & Hadj) Hrun.
  assert (exists cur, currentTopic st = Some cur) as [cur Hc].
  { rewrite Hcur. destruct (Z.ltb_spec (historyIndex st) 0); [eauto|].
    rewrite index_lookup by lia.
    apply lookup_lt_is_Some_2. unfold jslength in *. lia. }
  destruct (decide (trim newTopic = [])) as [He|Hne].
  { rewrite (changeTopic_same toLowerCase st cur) in Hrun by auto.
    inversion Hrun; subst. repeat split; auto; apply Hempty. }
  destruct (decide (toLowerCase (trim newTopic) = toLowerCase cur)) as [Hl|Hl].
  { rewrite (changeTopic_same toLowerCase st cur) in Hrun by auto.
    inversion Hrun; subst. repeat split; auto; apply Hempty. }
  rewrite (changeTopic_push toLowerCase st cur) in Hrun by (auto; lia).
  inversion Hrun; subst st'. clear Hrun. unfold historyWellFormed. simpl.
  set (n := Z.to_nat (historyIndex st + 1)).
  assert (Hn : length (take n (history st)) = n).
  { apply length_take_le. unfold jslength in *. lia. }
  split; [|split].
  - rewrite jslength_app. pose proof (jslength_nonneg (take n (history st))).
    unfold jslength at 2. simpl. split; [lia|].
    intros E. apply app_eq_nil in E as [_ E]. discriminate.
  - apply Forall_app. split; [apply Forall_take; exact Htopics|].
    constructor; [|constructor]. split; [exact Hne|apply trim_idem].
  - intros i a b Ha Hb.
    destruct (Nat.lt_ge_cases (S i) n) as [Hlt|Hge].
    + rewrite lookup_app_l in Ha, Hb by lia.
      rewrite lookup_take_lt in Ha, Hb by lia. eapply Hadj; eassumption.
    + destruct (Nat.eq_dec (S i) n) as [Heq|Hneq].
      * rewrite lookup_app_l in Ha by lia. rewrite lookup_take_lt in Ha by lia.
        rewrite lookup_app_r in Hb by lia.
        replace (S i - length (take n (history st)))%nat with 0%nat in Hb by lia.
        simpl in Hb. inversion Hb; subst b.
        assert (Hidx : 0 <= historyIndex st) by lia.
        destruct (Z.ltb_spec (historyIndex st) 0); [lia|].
        rewrite index_lookup in Hcur by lia.
        replace (Z.to_nat (historyIndex st)) with i in Hcur by lia.
        rewrite Ha, Hc in Hcur. inversion Hcur; subst a. congruence.
      * rewrite lookup_app_r in Hb by lia.
        destruct (S i - length (take n (history st)))%nat as [|k] eqn:Hk; [lia|].
        simpl in Hb. destruct k; discriminate.
Qed.

Lemma move_wf (st : NavState) (newIndex : Z) :
  historyWellFormed toLowerCase st ->
  0 <= newIndex ->
  history st <> [] ->
  historyWellFormed toLowerCase
    (mkNav (history st) newIndex (index (history st) newIndex)).
Proof.
  intros (Hempty & Htopics & Hadj) Hpos Hne. unfold historyWellFormed. simpl.
  repeat split; auto; try lia. intros E. contradiction.
Qed.

Lemma step_wf (st st' : NavState) (a : action) :
  navInv st -> historyWellFormed toLowerCase st ->
  step toLowerCase st a = Ok st' ->
  historyWellFormed toLowerCase st'.
Proof.
  intros Hinv Hwf Hstep. destruct a as [topic| |]; simpl in Hstep.
  - eapply changeTopic_wf; eassumption.
  - inversion Hstep; subst st'. unfold handlePrevious.
    destruct (Z.ltb_spec 0 (historyIndex st)); [|exact Hwf].
    apply move_wf; [exact Hwf|lia|].
    destruct Hinv as [Hrange _]. intros E. rewrite E in Hrange.
    unfold jslength in Hrange. simpl in Hrange. lia.
  - inversion Hstep; subst st'. unfold handleNext.
    destruct (Z.ltb_spec (historyIndex st) (jslength (history st) - 1)); [|exact Hwf].
    destruct Hinv as [Hrange _].
    apply move_wf; [exact Hwf|lia|].
    intros E. rewrite E in *. unfold jslength in *. simpl in *. lia.
Qed.

Lemma run_wf (acts : list action) (st st' : NavState) :
  navInv st -> historyWellFormed toLowerCase st ->
  run toLowerCase st acts = Ok st' ->
  navInv st' /\ historyWellFormed toLowerCase st'.
Proof.
  revert st. induction acts as [|a acts IH]; intros st Hinv Hwf Hrun; simpl in Hrun.
  - inversion Hrun; subst. auto.
  - destruct (step_inv toLowerCase st a Hinv) as (st1 & Hstep & Hinv1).
    rewrite Hstep in Hrun. apply (IH st1); auto.
    apply (step_wf st st1 a); assumption.
Qed.

(** X1: in every state that pushes, backs and forwards reach from the
    initial state, the cursor is -1 exactly while the history is empty,
    every entry of the history is a non-empty trimmed topic, no two
    neighbouring entries are equal when case is ignored, and the current
    topic is the entry under the cursor. *)
Theorem history_shape (acts : list action) (st : NavState) :
  run toLowerCase initialNav acts = Ok st ->
  (historyIndex st = -1 <-> history st = []) /\
  Forall (fun t => t <> [] /\ trim t = t) (history st) /\
  (forall i a b,
      history st !! i = Some a -> history st !! S i = Some b ->
      toLowerCase a <> toLowerCase b) /\
  (0 <= historyIndex st -> currentTopic st = history st !! Z.to_nat (historyIndex st)).
Proof.
  intros Hrun.
  destruct (run_wf acts initialNav st initialNav_inv initialNav_wf Hrun)
    as ([Hrange Hcur] & Hempty & Htopics & Hadj).
  repeat split; try apply Hempty; auto.
  intros Hpos. rewrite Hcur. destruct (Z.ltb_spec (historyIndex st) 0); [lia|].
  apply index_lookup. lia.
Qed.

(** X2: in a reachable state with an entry after the cursor, a forward
    followed by a back restores the state: history, cursor and current
    topic. *)
Theorem forward_then_back (acts : list action) (st : NavState) :
  run toLowerCase initialNav acts = Ok st ->
  historyIndex st < jslength (history st) - 1 ->
  handlePrevious (handleNext st) = st.
Proof.
  intros Hrun Hlt.
  destruct (run_wf acts initialNav st initialNav_inv initialNav_wf Hrun)
    as ([Hrange Hcur] & Hempty & _).
  assert (Hpos : 0 <= historyIndex st).
  { destruct (Z.eq_dec (historyIndex st) (-1)) as [E|E]; [|lia].
    apply Hempty in E. rewrite E in Hlt. unfold jslength in Hlt. simpl in Hlt. lia. }
  unfold handleNext. destruct (Z.ltb_spec (historyIndex st) (jslength (history st) - 1)); [|lia].
  unfold handlePrevious. simpl.
  destruct (Z.ltb_spec 0 (historyIndex st + 1)); [|lia].
  replace (historyIndex st + 1 - 1) with (historyIndex st) by lia.
  destruct (Z.ltb_spec (historyIndex st) 0); [lia|].
  rewrite <- Hcur. destruct st; reflexivity.
Qed.

(** X3: an action never changes the entries of the history up to the
    cursor, and lengthens the history by one entry at most; back and
    forward leave the whole history as it is. *)
Theorem step_keeps_visited (st st' : NavState) (a : action) :
  -1 <= historyIndex st <= jslength (history st) - 1 ->
  step toLowerCase st a = Ok st' ->
  (forall i, 0 <= i <= historyIndex st ->
     index (history st') i = index (history st) i) /\
  jslength (history st') <= jslength (history st) + 1 /\
  (match a with Push _ => True | _ => history st' = history st end).
Proof.
  intros Hrange Hstep.
  assert (Hsame : forall s, history s = history st ->
            (forall i, 0 <= i <= historyIndex st ->
               index (history s) i = index (history st) i) /\
            jslength (history s) <= jslength (history st) + 1).
  { intros s ->. split; [reflexivity|lia]. }
  destruct a as [topic| |]; simpl in Hstep.
  - unfold changeTopic in Hstep.
    destruct (truthy (trim topic)); [|inversion Hstep; subst; split; [|split]; auto; apply Hsame; auto].
    destruct (currentTopic st) as [cur|]; [|discriminate].
    destruct (negb _); [|inversion Hstep; subst; split; [|split]; auto; apply Hsame; auto].
    inversion Hstep; subst st'. clear Hstep. simpl.
    rewrite slice_0 by lia. set (n := Z.to_nat (historyIndex st + 1)).
    assert (Hn : length (take n (history st)) = n).
    { apply length_take_le. unfold jslength in *. lia. }
    split; [|split; [|exact I]].
    + intros i Hi. rewrite !index_lookup by lia.
      rewrite lookup_app_l by lia. apply lookup_take_lt. lia.
    + rewrite jslength_app. unfold jslength in *. rewrite Hn. subst n. simpl. lia.
  - inversion Hstep; subst st'. unfold handlePrevious.
    destruct (0 <? historyIndex st); simpl; (split; [|split]); auto; apply Hsame; auto.
  - inversion Hstep; subst st'. unfold handleNext.
    destruct (historyIndex st <? jslength (history st) - 1); simpl;
      (split; [|split]); auto; apply Hsame; auto.
Qed.

(** X4: a push that went through makes the same push a no-op: pushing a
    topic twice in a row leaves the state of the first push. *)
Theorem changeTopic_twice (st st1 : NavState) (newTopic : jsstring) :
  changeTopic toLowerCase st newTopic = Ok st1 ->
  changeTopic toLowerCase st1 newTopic = Ok st1.
Proof.
  unfold changeTopic. destruct (truthy (trim newTopic)) eqn:Ht.
  2:{ intros E. inversion E; subst. reflexivity. }
  destruct (currentTopic st) as [cur|] eqn:Hcur; [|discriminate].
  destruct (negb (streq (toLowerCase (trim newTopic)) (toLowerCase cur))) eqn:Hneq.
  - intros E. inversion E; subst st1. simpl.
    assert (streq (toLowerCase (trim newTopic)) (toLowerCase (trim newTopic)) = true) as ->
      by (apply streq_true; reflexivity).
    reflexivity.
  - intros E. inversion E; subst st1. rewrite Hcur, Hneq. reflexivity.
Qed.

End NavigationShape.

(** X5: the Previous button is disabled exactly in the states where
    [handlePrevious] changes nothing, and the Next button exactly where
    [handleNext] changes nothing. *)
Theorem buttons_disabled_iff_noop (st : NavState) :
  (previousDisabled st = true <-> handlePrevious st = st) /\
  (nextDisabled st = true <-> handleNext st = st).
Proof.
  unfold previousDisabled, nextDisabled, handlePrevious, handleNext. split.
  - destruct (Z.ltb_spec 0 (historyIndex st)) as [Hlt|Hge].
    + split.
      * intros H. apply Z.leb_le in H. lia.
      * intros E. apply (f_equal historyIndex) in E. simpl in E. lia.
    + split; [reflexivity|]. intros _. apply Z.leb_le. lia.
  - destruct (Z.ltb_spec (historyIndex st) (jslength (history st) - 1)) as [Hlt|Hge].
    + split.
      * intros H. apply Z.geb_le in H. lia.
      * intros E. apply (f_equal historyIndex) in E. simpl in E. lia.
    + split; [reflexivity|]. intros _. apply Z.geb_le. lia.
Qed.

Lemma forward_then_back_witness :
  handlePrevious (handleNext (mkNav [js "A"; js "B"] 0 (Some (js "A"))))
  = mkNav [js "A"; js "B"] 0 (Some (js "A")).
Proof.
  apply (forward_then_back asciiToLowerCase [Push (js "A"); Push (js "B"); Back]).
  - vm_compute. reflexivity.
  - vm_compute. reflexivity.
Defined.

Lemma history_shape_witness :
  Forall (fun t => t <> [] /\ trim t = t) [js "A"; js "D"].
Proof.
  apply (history_shape asciiToLowerCase
           [Push (js " A"); Push (js "a "); Push (js "B"); Back; Push (js "D ")]
           (mkNav [js "A"; js "D"] 1 (Some (js "D")))).
  vm_compute. reflexivity.
Defined.

Lemma step_keeps_visited_witness :
  index [js "A"; js "D"] 0 = index [js "A"; js "B"; js "C"] 0.
Proof.
  apply (step_keeps_visited asciiToLowerCase
           (mkNav [js "A"; js "B"; js "C"] 0 (Some (js "A")))
           (mkNav [js "A"; js "D"] 1 (Some (js "D"))) (Push (js "D"))).
  - vm_compute. split; discriminate.
  - vm_compute. reflexivity.
  - simpl. lia.
Defined.

Lemma changeTopic_twice_witness :
  changeTopic asciiToLowerCase (mkNav [js "A"; js "D"] 1 (Some (js "D"))) (js " D ")
  = Ok (mkNav [js "A"; js "D"] 1 (Some (js "D"))).
Proof.
  apply (changeTopic_twice asciiToLowerCase (mkNav [js "A"] 0 (Some (js "A")))).
  vm_compute. reflexivity.
Defined.

(** ** Clickable words *)

Lemma alternates_parts (inSpace : bool) (parts : list jsstring) (p : jsstring) :
  alternates inSpace parts -> p ∈ parts ->
  forallb isWhiteSpace p = true \/ noWhiteSpace p.
Proof.
  revert inSpace. induction parts as [|q parts IH]; intros inSpace Halt Hp.
  - inversion Hp.
  - destruct Halt as [Hq Hrest]. apply elem_of_cons in Hp as [->|Hp].
    + destruct inSpace; [left; apply Hq|right; exact Hq].
    + apply (IH (negb inSpace)); assumption.
Qed.

Lemma concat_elem_contains (l : list jsstring) (x : jsstring) :
  x ∈ l -> contains (concat l) x.
Proof.
  induction l as [|y l IH]; intros Hx; [inversion Hx|].
  apply elem_of_cons in Hx as [->|Hx].
  - exists [], (concat l). reflexivity.
  - destruct (IH Hx) as (before & after & E).
    exists (y ++ before), after. simpl. rewrite E, <- app_assoc. reflexivity.
Qed.

Lemma contains_trans (s t u : jsstring) : contains s t -> contains t u -> contains s u.
Proof.
  intros (b1 & a1 & ->) (b2 & a2 & ->).
  exists (b1 ++ b2), (a2 ++ a1). rewrite <- !app_assoc. reflexivity.
Qed.

Lemma noWhiteSpace_app_l (s t : jsstring) : noWhiteSpace (s ++ t) -> noWhiteSpace s.
Proof.
  unfold noWhiteSpace. rewrite forallb_app, andb_true_iff. tauto.
Qed.

Section ClickWords.

Variable toLowerCase : jsstring -> jsstring.

Lemma renderPart_clicks (b : baseKey) (i : nat) (part w : jsstring) :
  forallb isWhiteSpace part = true \/ noWhiteSpace part ->
  In w (clickWords (renderPart toLowerCase b i part)) ->
  clickable toLowerCase part w.
Proof.
  intros Hshape. unfold renderPart.
  destruct (streq (trim part) []) eqn:Htrim; [simpl; tauto|].
  destruct (bool_decide (toLowerCase (wordOf part) ∈ STOP_WORDS)) eqn:Hstop; [simpl; tauto|].
  destruct (streq (wordOf part) []) eqn:Hempty; [simpl; tauto|].
  simpl. intros [<-|[]].
  apply streq_false in Htrim, Hempty. apply bool_decide_eq_false in Hstop.
  destruct (word_punctuation part) as (Hsplit & _ & Hlast).
  assert (Hns : noWhiteSpace (wordOf part)).
  { destruct Hshape as [Hws|Hns].
    - exfalso. apply Htrim. apply trim_nil. exact Hws.
    - apply (noWhiteSpace_app_l _ (punctuationOf part)). rewrite <- Hsplit. exact Hns. }
  repeat split; auto.
  - apply trim_no_space. exact Hns.
  - exists [], (punctuationOf part). exact Hsplit.
Qed.

Lemma renderPartsFrom_clicks (b : baseKey) (i : nat) (parts : list jsstring) (w : jsstring) :
  In w (flat_map clickWords (renderPartsFrom toLowerCase b i parts)) ->
  exists k part, parts !! k = Some part /\
                 In w (clickWords (renderPart toLowerCase b (i + k) part)).
Proof.
  revert i. induction parts as [|part parts IH]; intros i Hw; [inversion Hw|].
  cbn [renderPartsFrom flat_map] in Hw. apply in_app_or in Hw as [Hw|Hw].
  - exists 0%nat, part. rewrite Nat.add_0_r. split; [reflexivity|exact Hw].
  - destruct (IH (S i) Hw) as (k & p & Hk & Hin).
    exists (S k), p. split; [exact Hk|].
    replace (i + S k)%nat with (S i + k)%nat by lia. exact Hin.
Qed.

Lemma renderInteractiveWords_clicks (text : jsstring) (b : baseKey) (w : jsstring) :
  In w (flat_map clickWords (renderInteractiveWords toLowerCase text b)) ->
  clickable toLowerCase text w.
Proof.
  intros Hw. unfold renderInteractiveWords in Hw.
  destruct (renderPartsFrom_clicks _ _ _ _ Hw) as (k & part & Hk & Hin).
  destruct (splitWhitespace_tokens text) as (Hconcat & Halt & _).
  assert (Hpart : part ∈ splitWhitespace text) by (apply (list_elem_of_lookup_2 _ _ _ Hk)).
  pose proof (renderPart_clicks _ _ _ _ (alternates_parts _ _ _ Halt Hpart) Hin)
    as (H1 & H2 & H3 & H4 & H5 & H6).
  repeat split; auto.
  apply (contains_trans text part w); [|exact H6].
  rewrite <- Hconcat at 1. apply concat_elem_contains. exact Hpart.
Qed.

Lemma renderContentParts_clicks (i : nat) (parts : list part) (w : jsstring) :
  (forall e, PElement e ∈ parts -> clickWords e = []) ->
  In w (flat_map clickWords (renderContentParts toLowerCase i parts)) ->
  exists s, PString s ∈ parts /\ clickable toLowerCase s w.
Proof.
  revert i. induction parts as [|p parts IH]; intros i Hel Hw; [inversion Hw|].
  assert (Hel' : forall e, PElement e ∈ parts -> clickWords e = [])
    by (intros e He; apply Hel; right; exact He).
  destruct p as [s|e]; cbn [renderContentParts] in Hw.
  - rewrite flat_map_app in Hw. apply in_app_or in Hw as [Hw|Hw].
    + exists s. split; [left|apply (renderInteractiveWords_clicks s (PartKey i)); exact Hw].
    + destruct (IH (S i) Hel' Hw) as (s' & Hs' & Hc).
      exists s'. split; [right; exact Hs'|exact Hc].
  - cbn [flat_map] in Hw. apply in_app_or in Hw as [Hw|Hw].
    + rewrite (Hel e) in Hw by left. inversion Hw.
    + destruct (IH (S i) Hel' Hw) as (s' & Hs' & Hc).
      exists s'. split; [right; exact Hs'|exact Hc].
Qed.

Lemma InteractiveContent_clicks (content : jsstring) (links : list Link)
    (usedLinks : gset jsstring) (w : jsstring) :
  In w (flat_map clickWords (InteractiveContent toLowerCase content links usedLinks).1) ->
  clickable toLowerCase content w.
Proof.
  pose proof (embedLinks_linkPass usedLinks (sortLinks links) [PString content] []) as Hpass.
  unfold InteractiveContent.
  destruct (embedLinks usedLinks (sortLinks links) [PString content] []) as [parts calls].
  simpl in *. intros Hw.
  pose proof (linkPass_text _ _ _ _ _ _ Hpass) as Htext. simpl in Htext.
  rewrite app_nil_r in Htext.
  destruct (linkPass_anchors _ _ _ _ _ _ Hpass) as (placed & _ & _ & Hperm & _).
  simpl in Hperm.
  destruct (renderContentParts_clicks 0 parts w) as (s & Hs & H1 & H2 & H3 & H4 & H5 & H6).
  - intros e He.
    assert (Hin : e ∈ anchorsOf parts).
    { unfold anchorsOf. apply list_elem_of_omap. exists (PElement e). split; [exact He|reflexivity]. }
    rewrite Hperm in Hin. apply list_elem_of_fmap in Hin as (link & -> & _). reflexivity.
  - exact Hw.
  - repeat split; auto. apply (contains_trans content s w); [|exact H6].
    rewrite <- Htext. apply (concat_elem_contains (map partText parts) s).
    apply (list_elem_of_fmap_2 partText _ (PString s)). exact Hs.
Qed.

(** X6: while loading, [ContentDisplay] shows the text followed by the
    cursor and reports no link; otherwise the text it shows is the content,
    whether the links are an array, empty or missing, and whatever the
    content (for the empty content it renders nothing). *)
Theorem ContentDisplay_text (content : jsstring) (isLoading : bool)
    (links : option (list Link)) (usedLinks : gset jsstring) :
  renderedText (ContentDisplay toLowerCase content isLoading links usedLinks).1
    = (if isLoading then content ++ js "|" else content) /\
  (isLoading = true \/ links = None \/ content = [] ->
     (ContentDisplay toLowerCase content isLoading links usedLinks).2 = []).
Proof.
  unfold ContentDisplay. destruct isLoading; [split; reflexivity|].
  destruct content as [|c content]; [split; reflexivity|].
  cbn [truthy]. destruct links as [links'|].
  - pose proof (InteractiveContent_round_trip toLowerCase (c :: content) links' usedLinks)
      as [Htext _].
    destruct (InteractiveContent toLowerCase (c :: content) links' usedLinks) as [els calls].
    split; [exact Htext|]. intros [H|[H|H]]; discriminate.
  - split; [apply renderInteractiveWords_text|reflexivity].
Qed.

(** X7: every word that a click on the output of [ContentDisplay] can send
    to [onWordClick] is not empty, is not a stop word in lower case, has no
    white space, does not end with one of [.,!?;:], and occurs in the
    content. *)
Theorem ContentDisplay_click_words (content : jsstring) (isLoading : bool)
    (links : option (list Link)) (usedLinks : gset jsstring) (w : jsstring) :
  In w (renderedClickWords (ContentDisplay toLowerCase content isLoading links usedLinks).1) ->
  w <> [] /\
  (toLowerCase w ∉ STOP_WORDS) /\
  noWhiteSpace w /\
  (forall r c, w = r ++ [c] -> isPunctuation c = false) /\
  contains content w.
Proof.
  unfold ContentDisplay. destruct isLoading; [intros []|].
  destruct (truthy content); [|intros []].
  destruct links as [links'|].
  - pose proof (InteractiveContent_clicks content links' usedLinks w) as Hc.
    destruct (InteractiveContent toLowerCase content links' usedLinks) as [els calls].
    simpl in *. intros Hw. destruct (Hc Hw) as (H1 & H2 & H3 & _ & H5 & H6). auto.
  - simpl. intros Hw.
    destruct (renderInteractiveWords_clicks content FallbackKey w Hw)
      as (H1 & H2 & H3 & _ & H5 & H6). auto.
Qed.

(** X8: a click on a word of the output, wired to [changeTopic] as [App]
    does, is never turned down as empty and never changed by trimming: it
    is a no-op when the word is the current topic up to case, and otherwise
    it pushes the word as it is written. *)
Theorem click_word_pushes (st : NavState) (cur content : jsstring) (isLoading : bool)
    (links : option (list Link)) (usedLinks : gset jsstring) (w : jsstring) :
  In w (renderedClickWords (ContentDisplay toLowerCase content isLoading links usedLinks).1) ->
  -1 <= historyIndex st ->
  currentTopic st = Some cur ->
  changeTopic toLowerCase st w =
    if streq (toLowerCase w) (toLowerCase cur) then Ok st
    else Ok (mkNav (take (Z.to_nat (historyIndex st + 1)) (history st) ++ [w])
                   (jslength (take (Z.to_nat (historyIndex st + 1)) (history st) ++ [w]) - 1)
                   (Some w)).
Proof.
  intros Hw Hidx Hcur.
  assert (Hc : clickable toLowerCase content w).
  { revert Hw. unfold ContentDisplay. destruct isLoading; [intros []|].
    destruct (truthy content); [|intros []].
    destruct links as [links'|].
    - pose proof (InteractiveContent_clicks content links' usedLinks w) as Hc.
      destruct (InteractiveContent toLowerCase content links' usedLinks) as [els calls].
      exact Hc.
    - apply renderInteractiveWords_clicks. }
  destruct Hc as (Hne & _ & _ & Htrim & _).
  destruct (streq (toLowerCase w) (toLowerCase cur)) eqn:Hsame.
  - apply streq_true in Hsame. apply (changeTopic_same toLowerCase st cur); auto.
    right. rewrite Htrim. exact Hsame.
  - apply streq_false in Hsame.
    rewrite (changeTopic_push toLowerCase st cur w); rewrite ?Htrim; auto.
Qed.

End ClickWords.

Lemma ContentDisplay_text_witness :
  (ContentDisplay asciiToLowerCase (js "The cat") true None ∅).2 = [].
Proof.
  apply (ContentDisplay_text asciiToLowerCase (js "The cat") true None ∅).
  left. reflexivity.
Defined.

Lemma ContentDisplay_click_words_witness :
  js "cat" <> [] /\ (asciiToLowerCase (js "cat") ∉ STOP_WORDS).
Proof.
  destruct (ContentDisplay_click_words asciiToLowerCase (js "The cat, runs.") false
              (Some [mkLink (js "u") (js "runs")]) ∅ (js "cat")) as (H1 & H2 & _).
  - vm_compute. left. reflexivity.
  - split; assumption.
Defined.

Lemma click_word_pushes_witness :
  changeTopic asciiToLowerCase (mkNav [js "Pets"] 0 (Some (js "Pets"))) (js "cat")
  = Ok (mkNav [js "Pets"; js "cat"] 1 (Some (js "cat"))).
Proof.
  rewrite (click_word_pushes asciiToLowerCase (mkNav [js "Pets"] 0 (Some (js "Pets")))
             (js "Pets") (js "The cat, runs.") false None ∅ (js "cat")).
  - vm_compute. reflexivity.
  - vm_compute. left. reflexivity.
  - simpl. lia.
  - reflexivity.
Defined.

(** ** The order of the links *)

Lemma insertSorted_filter (n : Z) (x : Link) (l : list Link) :
  filter (fun link => jslength (title link) = n) (insertSorted x l)
  = filter (fun link => jslength (title link) = n) (x :: l).
Proof.
  induction l as [|y l IH]; [reflexivity|].
  cbn [insertSorted]. unfold compareLinks.
  destruct (Z.leb_spec (jslength (title y) - jslength (title x)) 0) as [|Hgt]; [reflexivity|].
  rewrite filter_cons, IH, !filter_cons.
  destruct (decide (jslength (title y) = n)), (decide (jslength (title x) = n));
    try reflexivity. lia.
Qed.

(** X9: the sort is stable: for every length, the links whose title has
    that length come in the sorted list in the order they had in the
    list given. *)
Theorem sortLinks_stable (n : Z) (links : list Link) :
  filter (fun link => jslength (title link) = n) (sortLinks links)
  = filter (fun link => jslength (title link) = n) links.
Proof.
  induction links as [|x links IH]; [reflexivity|].
  cbn [sortLinks foldr]. fold (sortLinks links).
  rewrite insertSorted_filter, !filter_cons, IH. reflexivity.
Qed.

(** ** What the pass embeds and reports *)

Lemma splice_text (link : Link) (before after : jsstring) :
  concat (map partText (splice link before after)) = before ++ title link ++ after.
Proof.
  unfold splice. destruct before, after; simpl; rewrite ?app_nil_r; reflexivity.
Qed.

Lemma placedAt_contains (link : Link) (parts mid : list part) :
  placedAt link parts mid -> contains (concat (map partText parts)) (title link).
Proof.
  intros [pre post s before after _ Hs _].
  exists (concat (map partText pre) ++ before), (after ++ concat (map partText post)).
  rewrite map_app, concat_app. simpl. rewrite Hs, <- !app_assoc. reflexivity.
Qed.

(** The links that the pass places: none of them used, each with a title
    that occurs in the text, and reported in the order they were placed. *)
Lemma linkPass_placedLinks usedLinks sortedLinks parts calls parts' calls' :
  linkPass usedLinks sortedLinks parts calls parts' calls' ->
  exists placedLinks,
    sublist placedLinks sortedLinks /\
    Forall (fun link => (url link ∉ usedLinks) /\
                        contains (concat (map partText parts)) (title link)) placedLinks /\
    Permutation (anchorsOf parts') (anchorsOf parts ++ map anchorOf placedLinks) /\
    calls' = calls ++ map url placedLinks.
Proof.
  induction 1 as [parts calls
                 |link rest parts calls parts' calls' Hused _ IH
                 |link rest parts calls parts' calls' Hunused Hnone _ IH
                 |link rest parts mid calls parts' calls' Hunused Hplaced _ IH].
  - exists []. simpl. rewrite !app_nil_r.
    split; [apply sublist_nil|]. split; [constructor|]. split; reflexivity.
  - destruct IH as (pl & Hsub & Hall & Hperm & Hcalls).
    exists pl. repeat split; auto. apply sublist_cons. exact Hsub.
  - destruct IH as (pl & Hsub & Hall & Hperm & Hcalls).
    exists pl. repeat split; auto. apply sublist_cons. exact Hsub.
  - destruct IH as (pl & Hsub & Hall & Hperm & Hcalls).
    exists (link :: pl). repeat split.
    + apply sublist_skip. exact Hsub.
    + constructor; [split; [assumption|apply (placedAt_contains link parts mid Hplaced)]|].
      rewrite (placedAt_text link parts mid Hplaced) in Hall. exact Hall.
    + rewrite Hperm. rewrite (placedAt_anchors link parts mid Hplaced).
      simpl. rewrite <- app_assoc. reflexivity.
    + rewrite Hcalls. simpl. rewrite <- app_assoc. reflexivity.
Qed.

Lemma applyLinkUsed_elem (usedLinks : gset jsstring) (calls : list jsstring) (u : jsstring) :
  u ∈ applyLinkUsed usedLinks calls <-> u ∈ calls \/ u ∈ usedLinks.
Proof.
  unfold applyLinkUsed. revert usedLinks.
  induction calls as [|c calls IH]; intros usedLinks; simpl.
  - split; [auto|]. intros [H|H]; [inversion H|exact H].
  - rewrite IH. unfold handleLinkUsed. rewrite elem_of_union, elem_of_singleton, elem_of_cons.
    tauto.
Qed.

Section PassFacts.

Variable toLowerCase : jsstring -> jsstring.

Lemma renderPartsFrom_fragments (b : baseKey) (i : nat) (parts : list jsstring) (e : element) :
  e ∈ renderPartsFrom toLowerCase b i parts -> exists k children, e = Fragment k children.
Proof.
  revert i. induction parts as [|p parts IH]; intros i He; [inversion He|].
  cbn [renderPartsFrom] in He. apply elem_of_cons in He as [->|He]; [|eauto].
  unfold renderPart. destruct (streq _ _); [eauto|].
  destruct (_ || _); eauto.
Qed.

Lemma renderContentParts_anchor (i : nat) (parts : list part) (href label : jsstring) (k : key) :
  Anchor href k label ∈ renderContentParts toLowerCase i parts ->
  PElement (Anchor href k label) ∈ parts.
Proof.
  revert i. induction parts as [|p parts IH]; intros i He; [inversion He|].
  destruct p as [s|e]; cbn [renderContentParts] in He.
  - apply elem_of_app in He as [He|He]; [|right; eauto].
    apply renderPartsFrom_fragments in He as (k' & children & E). discriminate.
  - apply elem_of_cons in He as [<-|He]; [left|right; eauto].
Qed.

(** The links that a render places, with what is known of each. *)
Lemma InteractiveContent_placed (content : jsstring) (links : list Link)
    (usedLinks : gset jsstring) :
  exists parts placedLinks,
    InteractiveContent toLowerCase content links usedLinks
      = (renderContentParts toLowerCase 0 parts, map url placedLinks) /\
    sublist placedLinks (sortLinks links) /\
    Forall (fun link => (link ∈ links) /\ (url link ∉ usedLinks) /\
                        contains content (title link)) placedLinks /\
    Permutation (anchorsOf parts) (map anchorOf placedLinks).
Proof.
  pose proof (embedLinks_linkPass usedLinks (sortLinks links) [PString content] []) as Hpass.
  unfold InteractiveContent.
  destruct (embedLinks usedLinks (sortLinks links) [PString content] []) as [parts calls].
  simpl in Hpass.
  destruct (linkPass_placedLinks _ _ _ _ _ _ Hpass) as (placed & Hsub & Hall & Hperm & Hcalls).
  simpl in *. rewrite app_nil_r in Hall.
  exists parts, placed. subst calls. repeat split; auto.
  apply Forall_forall. intros link Hin.
  pose proof (proj1 (Forall_forall _ _) Hall link Hin) as [Hun Hc].
  repeat split; auto.
  rewrite <- (sortLinks_perm links). apply (elem_of_sublist _ _ _ Hin Hsub).
Qed.

(** X10: every URL that a render reports through [onLinkUsed], and every
    anchor it shows, belongs to a link of the list whose URL is not in the
    used set and whose title occurs in the content; the URLs are reported
    once per anchor, in the order the sorted list gives.  A link with a
    used URL, or with a title that occurs nowhere, is left out in
    silence. *)
Theorem reported_links (content : jsstring) (links : list Link) (usedLinks : gset jsstring) :
  exists placedLinks,
    (InteractiveContent toLowerCase content links usedLinks).2 = map url placedLinks /\
    sublist placedLinks (sortLinks links) /\
    Forall (fun link => (link ∈ links) /\ (url link ∉ usedLinks) /\
                        contains content (title link)) placedLinks /\
    (forall href k label,
        Anchor href k label ∈ (InteractiveContent toLowerCase content links usedLinks).1 ->
        exists link, (link ∈ placedLinks) /\ href = url link /\ label = title link).
Proof.
  destruct (InteractiveContent_placed content links usedLinks)
    as (parts & placed & -> & Hsub & Hall & Hperm).
  exists placed. simpl. repeat split; auto.
  intros href k label He. apply renderContentParts_anchor in He.
  assert (Hin : Anchor href k label ∈ anchorsOf parts).
  { unfold anchorsOf. apply list_elem_of_omap. eexists. split; [exact He|reflexivity]. }
  rewrite Hperm in Hin. apply list_elem_of_fmap in Hin as (link & E & Hl).
  exists link. unfold anchorOf in E. inversion E; subst. auto.
Qed.

(** X11: once [handleLinkUsed] has taken the calls of a render into the
    used set, no later render, of any text and any links, reports or shows
    a link whose URL the first render reported or that was used before. *)
Theorem later_render_skips_reported (content1 content2 : jsstring)
    (links1 links2 : list Link) (usedLinks : gset jsstring) :
  let calls1 := (InteractiveContent toLowerCase content1 links1 usedLinks).2 in
  let second :=
    InteractiveContent toLowerCase content2 links2 (applyLinkUsed usedLinks calls1) in
  (forall u, u ∈ second.2 -> (u ∉ calls1) /\ (u ∉ usedLinks)) /\
  (forall href k label, Anchor href k label ∈ second.1 -> (href ∉ calls1) /\ (href ∉ usedLinks)).
Proof.
  intros calls1 second.
  destruct (InteractiveContent_placed content2 links2 (applyLinkUsed usedLinks calls1))
    as (parts & placed & Heq & Hsub & Hall & Hperm).
  subst second. rewrite Heq. simpl.
  assert (Hfresh : forall link, link ∈ placed -> (url link ∉ calls1) /\ (url link ∉ usedLinks)).
  { intros link Hin.
    pose proof (proj1 (Forall_forall _ _) Hall link Hin) as (_ & Hun & _).
    rewrite applyLinkUsed_elem in Hun. tauto. }
  split.
  - intros u Hu. apply list_elem_of_fmap in Hu as (link & -> & Hin). auto.
  - intros href k label He. apply renderContentParts_anchor in He.
    assert (Hin : Anchor href k label ∈ anchorsOf parts).
    { unfold anchorsOf. apply list_elem_of_omap. eexists. split; [exact He|reflexivity]. }
    rewrite Hperm in Hin. apply list_elem_of_fmap in Hin as (link & E & Hl).
    unfold anchorOf in E. inversion E; subst. auto.
Qed.

Lemma embedLinks_all_used (usedLinks : gset jsstring) (sortedLinks : list Link)
    (parts : list part) (calls : list jsstring) :
  (forall link, link ∈ sortedLinks -> url link ∈ usedLinks) ->
  embedLinks usedLinks sortedLinks parts calls = (parts, calls).
Proof.
  induction sortedLinks as [|link rest IH]; intros Hused; [reflexivity|].
  cbn [embedLinks]. rewrite bool_decide_eq_true_2 by (apply Hused; left).
  apply IH. intros l Hl. apply Hused. right. exact Hl.
Qed.

(** X12: when the list of links is empty, or every URL in it is in the used
    set, the render is the plain rendering of the words of the content,
    with no anchor and no call to [onLinkUsed]. *)
Theorem all_used_renders_words (content : jsstring) (links : list Link)
    (usedLinks : gset jsstring) :
  (forall link, link ∈ links -> url link ∈ usedLinks) ->
  InteractiveContent toLowerCase content links usedLinks
  = (renderInteractiveWords toLowerCase content (PartKey 0), []).
Proof.
  intros Hused. unfold InteractiveContent.
  rewrite embedLinks_all_used.
  - cbn [renderContentParts]. rewrite app_nil_r. reflexivity.
  - intros link Hl. apply Hused. rewrite <- (sortLinks_perm links). exact Hl.
Qed.

End PassFacts.

(** ** The longest title first *)

Lemma app_cons_split {A} (l1 r1 l2 r2 : list A) (x y : A) :
  l1 ++ x :: r1 = l2 ++ y :: r2 -> x <> y ->
  (exists m, l2 = l1 ++ x :: m /\ r1 = m ++ y :: r2) \/
  (exists m, l1 = l2 ++ y :: m /\ r2 = m ++ x :: r1).
Proof.
  revert l2. induction l1 as [|a l1 IH]; intros l2 E Hne.
  - destruct l2 as [|b l2]; simpl in E; inversion E; subst; [contradiction|].
    left. exists l2. split; reflexivity.
  - destruct l2 as [|b l2]; simpl in E; inversion E; subst.
    + right. exists l1. split; reflexivity.
    + destruct (IH l2 H1 Hne) as [(m & -> & ->)|(m & -> & ->)].
      * left. exists m. split; reflexivity.
      * right. exists m. split; reflexivity.
Qed.

(** The rest of the pass leaves an element where it is, with the same text
    before it and after it. *)
Lemma linkPass_keeps_element usedLinks sortedLinks parts calls parts' calls' :
  linkPass usedLinks sortedLinks parts calls parts' calls' ->
  forall l r e, parts = l ++ PElement e :: r ->
  exists l' r',
    parts' = l' ++ PElement e :: r' /\
    concat (map partText l') = concat (map partText l) /\
    concat (map partText r') = concat (map partText r).
Proof.
  induction 1 as [parts calls
                 |link rest parts calls parts' calls' Hused _ IH
                 |link rest parts calls parts' calls' Hunused Hnone _ IH
                 |link rest parts mid calls parts' calls' Hunused Hplaced _ IH];
    intros l r e Hparts; eauto.
  destruct Hplaced as [pre post s before after _ Hs _].
  assert (Htext : concat (map partText (splice link before after)) = s)
    by (rewrite splice_text; symmetry; exact Hs).
  destruct (app_cons_split pre post l r (PString s) (PElement e) Hparts)
    as [(m & -> & ->)|(m & -> & ->)]; [discriminate| |].
  - destruct (IH (pre ++ splice link before after ++ m) r e) as (l' & r' & -> & Hl & Hr).
    { rewrite <- !app_assoc. reflexivity. }
    exists l', r'. split; [reflexivity|]. split; [|exact Hr].
    rewrite Hl, !map_app, !concat_app, Htext. reflexivity.
  - destruct (IH l (m ++ splice link before after ++ post) e) as (l' & r' & -> & Hl & Hr).
    { rewrite <- !app_assoc. reflexivity. }
    exists l', r'. split; [reflexivity|]. split; [exact Hl|].
    rewrite Hr, !map_app, !concat_app, Htext. reflexivity.
Qed.

Lemma embedLinks_app (usedLinks : gset jsstring) (l1 l2 : list Link)
    (parts : list part) (calls : list jsstring) :
  embedLinks usedLinks (l1 ++ l2) parts calls
  = embedLinks usedLinks l2 (embedLinks usedLinks l1 parts calls).1
                            (embedLinks usedLinks l1 parts calls).2.
Proof.
  revert parts calls. induction l1 as [|link l1 IH]; intros parts calls; [reflexivity|].
  cbn [app embedLinks]. destruct (bool_decide (url link ∈ usedLinks)); [apply IH|].
  destruct (embedLink link false parts) as [parts1 placed]. apply IH.
Qed.

Lemma embedLinks_skipped (usedLinks : gset jsstring) (skipped : list Link)
    (content : jsstring) (calls : list jsstring) :
  Forall (fun l => (url l ∈ usedLinks) \/ ~ contains content (title l)) skipped ->
  embedLinks usedLinks skipped [PString content] calls = ([PString content], calls).
Proof.
  induction 1 as [|link rest Hlink _ IH]; [reflexivity|].
  cbn [embedLinks]. destruct (bool_decide (url link ∈ usedLinks)) eqn:Hused; [exact IH|].
  apply bool_decide_eq_false in Hused. destruct Hlink as [?|Hno]; [contradiction|].
  cbn [embedLink embedInPart]. apply indexOf_absent in Hno. rewrite Hno. simpl. exact IH.
Qed.

(** X13: the first link of the sorted list (so a link with a longest title)
    that is not used and whose title occurs in the content is embedded at
    the first occurrence of its title in the content: in the parts that the
    pass leaves, the text before its anchor is the content up to that
    occurrence and the text after its anchor is the content after it.  No
    link that comes later is embedded inside it or moves it. *)
Theorem first_link_at_first_occurrence (content : jsstring) (links skipped rest : list Link)
    (link : Link) (usedLinks : gset jsstring) (before after : jsstring) :
  sortLinks links = skipped ++ link :: rest ->
  Forall (fun l => (url l ∈ usedLinks) \/ ~ contains content (title l)) skipped ->
  url link ∉ usedLinks ->
  content = before ++ title link ++ after ->
  (forall before' after',
      content = before' ++ title link ++ after' -> (length before <= length before')%nat) ->
  exists pre post,
    (embedLinks usedLinks (sortLinks links) [PString content] []).1
      = pre ++ PElement (anchorOf link) :: post /\
    concat (map partText pre) = before /\
    concat (map partText post) = after.
Proof.
  intros Hsorted Hskipped Hunused Hcontent Hfirst.
  rewrite Hsorted, embedLinks_app, (embedLinks_skipped _ _ _ _ Hskipped).
  cbn [fst snd embedLinks]. rewrite bool_decide_eq_false_2 by assumption.
  cbn [embedLink embedInPart].
  assert (Hfound : indexOf content (title link) <> -1).
  { intros E. apply indexOf_absent in E. apply E. exists before, after. exact Hcontent. }
  destruct (Z.eqb_spec (indexOf content (title link)) (-1)) as [|_]; [contradiction|].
  destruct (indexOf_cut content (title link) Hfound) as (b0 & a0 & Hc0 & Hb & Ha & Hmin).
  rewrite Hb, Ha.
  assert (Hlen : length b0 = length before).
  { apply Nat.le_antisymm; [apply (Hmin before after Hcontent)|apply (Hfirst b0 a0 Hc0)]. }
  assert (Hsame : b0 = before /\ a0 = after).
  { rewrite Hcontent in Hc0. apply app_inj_1 in Hc0 as [E1 E2]; [|congruence].
    apply app_inv_head in E2. auto. }
  destruct Hsame as [-> ->].
  cbn [app]. rewrite app_nil_r.
  fold (splice link before after).
  pose proof (embedLinks_linkPass usedLinks rest (splice link before after) [url link]) as Hpass.
  destruct (linkPass_keeps_element _ _ _ _ _ _ Hpass
              (if truthy before then [PString before] else [])
              (if truthy after then [PString after] else [])
              (anchorOf link) eq_refl) as (pre & post & Heq & Hpre & Hpost).
  exists pre, post. split; [exact Heq|]. split.
  - rewrite Hpre. destruct before; simpl; rewrite ?app_nil_r; reflexivity.
  - rewrite Hpost. destruct after; simpl; rewrite ?app_nil_r; reflexivity.
Qed.

Lemma reported_links_example :
  (InteractiveContent asciiToLowerCase (js "machine learning")
     [mkLink (js "u1") (js "learning"); mkLink (js "u2") (js "machine learning");
      mkLink (js "u3") (js "robots")] ∅).2 = [js "u2"].
Proof. vm_compute. reflexivity. Qed.

Lemma all_used_renders_words_witness :
  InteractiveContent asciiToLowerCase (js "machine learning")
    [mkLink (js "u2") (js "machine learning")] {[ js "u2" ]}
  = (renderInteractiveWords asciiToLowerCase (js "machine learning") (PartKey 0), []).
Proof.
  apply (all_used_renders_words asciiToLowerCase).
  intros link Hl. apply list_elem_of_singleton in Hl. subst link.
  apply elem_of_singleton. reflexivity.
Defined.

Lemma first_link_at_first_occurrence_witness :
  exists pre post,
    (embedLinks ∅
       (sortLinks [mkLink (js "u1") (js "AI"); mkLink (js "u2") (js "Artificial Intelligence")])
       [PString (js "AI and Artificial Intelligence and AI")] []).1
      = pre ++ PElement (anchorOf (mkLink (js "u2") (js "Artificial Intelligence"))) :: post /\
    concat (map partText pre) = js "AI and " /\
    concat (map partText post) = js " and AI".
Proof.
  apply (first_link_at_first_occurrence (js "AI and Artificial Intelligence and AI")
           [mkLink (js "u1") (js "AI"); mkLink (js "u2") (js "Artificial Intelligence")]
           [] [mkLink (js "u1") (js "AI")]
           (mkLink (js "u2") (js "Artificial Intelligence")) ∅
           (js "AI and ") (js " and AI")).
  - vm_compute. reflexivity.
  - constructor.
  - apply not_elem_of_empty.
  - vm_compute. reflexivity.
  - intros before' after' E.
    destruct (Nat.le_gt_cases (length (js "AI and ")) (length before')) as [|Hlt]; [assumption|].
    exfalso. change (length (js "AI and ")) with 7%nat in Hlt.
    do 7 (destruct before' as [|? before']; [vm_compute in E; discriminate E|]).
    simpl in Hlt. lia.
Defined.

(** ** The fence pattern *)

Section RegexFacts.

Context {R : Type}.

Lemma lit_app (s rest : jsstring) (k : jsstring -> option R) :
  lit s k (s ++ rest) = k rest.
Proof.
  unfold lit. rewrite (proj2 (isPrefix_true s (s ++ rest))) by eauto.
  rewrite drop_app_length. reflexivity.
Qed.

Lemma lit_sound (s input : jsstring) (k : jsstring -> option R) (r : R) :
  lit s k input = Some r -> exists rest, input = s ++ rest /\ k rest = Some r.
Proof.
  unfold lit. destruct (isPrefix s input) eqn:Hp; [|discriminate].
  apply isPrefix_true in Hp as [rest ->]. rewrite drop_app_length. eauto.
Qed.

Lemma starGreedy_stop (p : N -> bool) (k : jsstring -> option R) (input : jsstring) :
  (forall c rest, input = c :: rest -> p c = false) ->
  starGreedy p k input = k input.
Proof.
  destruct input as [|c rest]; [reflexivity|].
  intros H. simpl. rewrite (H c rest eq_refl). reflexivity.
Qed.

(** A greedy star takes the whole run when what follows then matches. *)
Lemma starGreedy_run (p : N -> bool) (k : jsstring -> option R) (w rest : jsstring) (r : R) :
  forallb p w = true ->
  (forall c rest', rest = c :: rest' -> p c = false) ->
  k rest = Some r ->
  starGreedy p k (w ++ rest) = Some r.
Proof.
  intros Hw Hrest Hk. induction w as [|c w IH]; simpl.
  - rewrite starGreedy_stop; assumption.
  - simpl in Hw. apply andb_true_iff in Hw as [Hc Hw].
    rewrite Hc, (IH Hw). reflexivity.
Qed.

Lemma starGreedy_sound (p : N -> bool) (k : jsstring -> option R) (input : jsstring) (r : R) :
  starGreedy p k input = Some r ->
  exists w rest, input = w ++ rest /\ forallb p w = true /\ k rest = Some r.
Proof.
  induction input as [|c input IH]; simpl; intros H.
  - exists [], []. auto.
  - destruct (p c) eqn:Hc.
    + destruct (starGreedy p k input) as [r'|] eqn:Hs.
      * inversion H; subst r'. destruct (IH eq_refl) as (w & rest & -> & Hw & Hk).
        exists (c :: w), rest. simpl. rewrite Hc, Hw. auto.
      * exists [], (c :: input). auto.
    + exists [], (c :: input). auto.
Qed.

Lemma optClass_skip (p : N -> bool) (k : jsstring -> option R) (input : jsstring) :
  (forall c rest, input = c :: rest -> p c = false) ->
  optClass p k input = k input.
Proof.
  destruct input as [|c rest]; [reflexivity|].
  intros H. simpl. rewrite (H c rest eq_refl). reflexivity.
Qed.

Lemma optClass_sound (p : N -> bool) (k : jsstring -> option R) (input : jsstring) (r : R) :
  optClass p k input = Some r ->
  k input = Some r \/ exists c rest, input = c :: rest /\ p c = true /\ k rest = Some r.
Proof.
  destruct input as [|c rest]; simpl; [auto|].
  destruct (p c) eqn:Hc; [|auto].
  destruct (k rest) as [r'|] eqn:Hk; [|auto].
  intros E. inversion E; subst. right. eauto.
Qed.

Lemma lazyAny_eq (k : jsstring -> jsstring -> option R) (acc input : jsstring) :
  lazyAny k acc input =
    match k acc input with
    | Some r => Some r
    | None =>
        match input with
        | c :: rest => lazyAny k (acc ++ [c]) rest
        | [] => None
        end
    end.
Proof. destruct input; reflexivity. Qed.

(** A lazy star stops at the first place where what follows matches. *)
Lemma lazyAny_first (k : jsstring -> jsstring -> option R) (acc u rest : jsstring) (r : R) :
  (forall u1 u2, u = u1 ++ u2 -> u2 <> [] -> k (acc ++ u1) (u2 ++ rest) = None) ->
  k (acc ++ u) rest = Some r ->
  lazyAny k acc (u ++ rest) = Some r.
Proof.
  revert acc. induction u as [|c u IH]; intros acc Hnone Hk.
  - rewrite lazyAny_eq. simpl. rewrite app_nil_r in Hk. rewrite Hk. reflexivity.
  - rewrite lazyAny_eq.
    pose proof (Hnone [] (c :: u) eq_refl) as H0. rewrite app_nil_r in H0.
    simpl in *. rewrite H0 by discriminate.
    apply IH.
    + intros u1 u2 E Hne. rewrite <- app_assoc. simpl.
      apply (Hnone (c :: u1) u2); [rewrite E; reflexivity|exact Hne].
    + rewrite <- app_assoc. exact Hk.
Qed.

End RegexFacts.

Lemma isPrefix_head_ne (a b : N) (t s : jsstring) :
  a <> b -> isPrefix (a :: t) (b :: s) = false.
Proof.
  intros Hne. cbn [isPrefix]. destruct (N.eqb_spec a b); [contradiction|reflexivity].
Qed.

Lemma isNewline_space (c : N) : isNewline c = true -> isWhiteSpace c = true.
Proof. unfold isNewline. intros H. apply N.eqb_eq in H. subst c. reflexivity. Qed.

Lemma fence_head (c : N) (rest : jsstring) :
  fence = c :: rest -> isWhiteSpace c = false.
Proof. intros E. inversion E. reflexivity. Qed.

(** The end of the pattern, [\n?\s*```$], matches white space followed by
    the closing fence, and nothing else. *)
Lemma fence_tail_ok (capture w : jsstring) :
  forallb isWhiteSpace w = true ->
  optClass isNewline (starGreedy isWhiteSpace (lit fence (atEnd capture))) (w ++ fence)
  = Some capture.
Proof.
  intros Hw.
  assert (Hstar : forall w', forallb isWhiteSpace w' = true ->
            starGreedy isWhiteSpace (lit fence (atEnd capture)) (w' ++ fence) = Some capture).
  { intros w' Hw'. apply starGreedy_run; [exact Hw'|apply fence_head|].
    rewrite <- (app_nil_r fence) at 2. rewrite lit_app. reflexivity. }
  destruct w as [|c w]; simpl.
  - apply (Hstar []). reflexivity.
  - simpl in Hw. apply andb_true_iff in Hw as [Hc Hw'].
    destruct (isNewline c).
    + rewrite (Hstar w Hw'). reflexivity.
    + apply (Hstar (c :: w)). simpl. rewrite Hc, Hw'. reflexivity.
Qed.

Lemma fence_tail_sound (capture input r : jsstring) :
  optClass isNewline (starGreedy isWhiteSpace (lit fence (atEnd capture))) input = Some r ->
  exists w, forallb isWhiteSpace w = true /\ input = w ++ fence.
Proof.
  assert (Hstar : forall input',
            starGreedy isWhiteSpace (lit fence (atEnd capture)) input' = Some r ->
            exists w, forallb isWhiteSpace w = true /\ input' = w ++ fence).
  { intros input' H. apply starGreedy_sound in H as (w & rest & -> & Hw & Hk).
    apply lit_sound in Hk as (rest' & -> & Hend).
    destruct rest'; [|discriminate]. rewrite app_nil_r. eauto. }
  intros H. apply optClass_sound in H as [H|(c & rest & -> & Hc & H)].
  - apply Hstar. exact H.
  - destruct (Hstar rest H) as (w & Hw & ->).
    exists (c :: w). simpl. rewrite (isNewline_space c Hc), Hw. auto.
Qed.

(** What the pattern captures from a fenced text: the text between the
    fences, without the tag and the white space around it. *)
Lemma fenceRegex_fenced (tag ws1 ws2 t body : jsstring) (a b : N) :
  tag = [] \/ tag = js "json" ->
  forallb isWhiteSpace ws1 = true ->
  forallb isWhiteSpace ws2 = true ->
  t = a :: body ++ [b] ->
  isWhiteSpace a = false -> a <> 106%N -> isWhiteSpace b = false ->
  fenceRegex (fence ++ tag ++ ws1 ++ t ++ ws2 ++ fence) = Some t.
Proof.
  intros Htag Hws1 Hws2 Ht Ha Hj Hb.
  unfold fenceRegex. rewrite lit_app.
  set (k4 := lazyAny (fun capture =>
               optClass isNewline (starGreedy isWhiteSpace (lit fence (atEnd capture)))) []).
  assert (H4 : k4 (t ++ ws2 ++ fence) = Some t).
  { subst k4. apply lazyAny_first.
    - intros u1 u2 E Hne. simpl.
      destruct (optClass isNewline _ (u2 ++ ws2 ++ fence)) as [r|] eqn:Hm; [|reflexivity].
      exfalso. apply fence_tail_sound in Hm as (w & Hw & Ew).
      rewrite app_assoc in Ew. apply app_inv_tail in Ew.
      destruct (exists_last Hne) as (u2' & b' & Eu2).
      assert (b' = b).
      { rewrite Ht, Eu2 in E. change (a :: body ++ [b]) with ((a :: body) ++ [b]) in E.
        rewrite app_assoc in E. apply app_inj_tail in E as [_ E]. congruence. }
      subst b'. rewrite <- Ew, Eu2, !forallb_app in Hw. simpl in Hw.
      rewrite Hb in Hw. rewrite !andb_false_r in Hw. discriminate.
    - simpl. apply fence_tail_ok. exact Hws2. }
  assert (H3 : optClass isNewline k4 (t ++ ws2 ++ fence) = Some t).
  { rewrite optClass_skip; [exact H4|].
    intros c rest E. rewrite Ht in E. inversion E; subst c.
    unfold isNewline. destruct (N.eqb_spec a 10) as [->|]; [discriminate Ha|reflexivity]. }
  assert (H2 : starGreedy isWhiteSpace (optClass isNewline k4) (ws1 ++ t ++ ws2 ++ fence) = Some t).
  { apply starGreedy_run; [exact Hws1| |exact H3].
    intros c rest E. rewrite Ht in E. inversion E; subst c. exact Ha. }
  destruct Htag as [->| ->].
  - unfold optLit. simpl app at 1.
    assert (Hp : isPrefix (js "json") (ws1 ++ t ++ ws2 ++ fence) = false).
    { change (js "json") with (106%N :: js "son").
      destruct ws1 as [|c ws1].
      - rewrite Ht. apply isPrefix_head_ne. congruence.
      - simpl in Hws1. apply andb_true_iff in Hws1 as [Hc _].
        apply isPrefix_head_ne. intros <-. discriminate Hc. }
    unfold lit at 1. rewrite Hp. exact H2.
  - unfold optLit. rewrite lit_app, H2. reflexivity.
Qed.

Lemma fenceRegex_unfenced (s : jsstring) :
  isPrefix fence s = false -> fenceRegex s = None.
Proof. intros H. unfold fenceRegex, lit. rewrite H. reflexivity. Qed.

Lemma trimStart_run (w s : jsstring) :
  forallb isWhiteSpace w = true -> trimStart (w ++ s) = trimStart s.
Proof.
  induction w as [|c w IH]; simpl; [reflexivity|].
  intros H. apply andb_true_iff in H as [Hc Hw]. rewrite Hc. apply IH. exact Hw.
Qed.

Lemma trimStart_cons (a : N) (s : jsstring) :
  isWhiteSpace a = false -> trimStart (a :: s) = a :: s.
Proof. intros Ha. simpl. rewrite Ha. reflexivity. Qed.

(** Trimming removes the white space around a text whose ends are not
    white space. *)
Lemma trim_pad (o1 o2 body : jsstring) (a b : N) :
  forallb isWhiteSpace o1 = true ->
  forallb isWhiteSpace o2 = true ->
  isWhiteSpace a = false -> isWhiteSpace b = false ->
  trim (o1 ++ (a :: body ++ [b]) ++ o2) = a :: body ++ [b].
Proof.
  intros Ho1 Ho2 Ha Hb. unfold trim, trimEnd.
  rewrite trimStart_run by exact Ho1.
  assert (E1 : trimStart ((a :: body ++ [b]) ++ o2) = (a :: body ++ [b]) ++ o2)
    by (apply (trimStart_cons a); exact Ha).
  rewrite E1, rev_app_distr.
  assert (Ho2' : forallb isWhiteSpace (rev o2) = true).
  { rewrite forallb_forall in *. intros c Hc. apply Ho2, in_rev. exact Hc. }
  rewrite trimStart_run by exact Ho2'.
  assert (E2 : rev (a :: body ++ [b]) = b :: rev (a :: body)).
  { change (a :: body ++ [b]) with ((a :: body) ++ [b]). rewrite rev_app_distr. reflexivity. }
  rewrite E2, (trimStart_cons b) by exact Hb.
  change (rev (b :: rev (a :: body))) with (rev (rev (a :: body)) ++ [b]).
  rewrite rev_involutive. reflexivity.
Qed.

Lemma trim_ends (body : jsstring) (a b : N) :
  isWhiteSpace a = false -> isWhiteSpace b = false ->
  trim (a :: body ++ [b]) = a :: body ++ [b].
Proof.
  intros Ha Hb. pose proof (trim_pad [] [] body a b eq_refl eq_refl Ha Hb) as H.
  cbn [app] in H. rewrite app_nil_r in H. exact H.
Qed.

(** ** The ASCII art *)

Section AsciiArtTheorems.

Variable engineMessage : exn -> jsstring.
Variable JSON_parse : jsstring -> option json.

(** A text in braces, bare or in a fence, is what the attempt parses. *)
Lemma stripFence_bare (body : jsstring) :
  stripFence (trim (123%N :: body ++ [125%N])) = 123%N :: body ++ [125%N].
Proof.
  rewrite (trim_ends body 123 125) by reflexivity.
  unfold stripFence. rewrite fenceRegex_unfenced by reflexivity. reflexivity.
Qed.

Lemma stripFence_fenced (o1 o2 tag ws1 ws2 body : jsstring) :
  forallb isWhiteSpace o1 = true -> forallb isWhiteSpace o2 = true ->
  tag = [] \/ tag = js "json" ->
  forallb isWhiteSpace ws1 = true -> forallb isWhiteSpace ws2 = true ->
  stripFence (trim (o1 ++ (fence ++ tag ++ ws1 ++ (123%N :: body ++ [125%N]) ++ ws2 ++ fence) ++ o2))
  = 123%N :: body ++ [125%N].
Proof.
  intros Ho1 Ho2 Htag Hws1 Hws2.
  set (t := 123%N :: body ++ [125%N]).
  assert (Hshape : forall m, fence ++ m ++ fence
                             = 96%N :: ([96%N; 96%N] ++ m ++ [96%N; 96%N]) ++ [96%N]).
  { intros m. unfold fence. simpl. rewrite <- app_assoc. reflexivity. }
  assert (Hassoc : fence ++ tag ++ ws1 ++ t ++ ws2 ++ fence
                   = fence ++ (tag ++ ws1 ++ t ++ ws2) ++ fence)
    by (rewrite <- !app_assoc; reflexivity).
  rewrite Hassoc, Hshape, (trim_pad o1 o2 _ 96 96) by (assumption || reflexivity).
  rewrite <- Hshape, <- Hassoc. unfold stripFence.
  rewrite (fenceRegex_fenced tag ws1 ws2 t body 123 125) by (auto; discriminate).
  subst t. cbn [truthy]. apply (trim_ends body 123 125); reflexivity.
Qed.

(** With a single attempt the loop is the attempt and its [catch]. *)
Lemma generateAsciiArt_once (apiKey : option jsstring) (topic : jsstring)
    (respond : Z -> artOutcome) :
  generateAsciiArt engineMessage JSON_parse apiKey topic respond =
    if negb (keyConfigured apiKey) then Throw (Error (js "API_KEY is not configured."))
    else
      match artAttempt JSON_parse (respond 1) with
      | inl result => Ok result
      | inr thrown =>
          Throw (Error (js "Could not generate ASCII art after 1 attempts: "
                          ++ messageOf engineMessage
                               (match thrown with
                                | Some e => e
                                | None => Error (js "Unknown error occurred")
                                end)))
      end.
Proof. reflexivity. Qed.

(** X14: a response whose text is a JSON object text in a code fence, with
    or without the tag [json] and with any white space inside and around
    the fence, gives what the bare object text gives. *)
Theorem fenced_response_as_bare (apiKey : option jsstring) (topic : jsstring)
    (o1 o2 tag ws1 ws2 body : jsstring) :
  forallb isWhiteSpace o1 = true -> forallb isWhiteSpace o2 = true ->
  tag = [] \/ tag = js "json" ->
  forallb isWhiteSpace ws1 = true -> forallb isWhiteSpace ws2 = true ->
  generateAsciiArt engineMessage JSON_parse apiKey topic
    (fun _ => ArtResolved
       (Some (o1 ++ (fence ++ tag ++ ws1 ++ (123%N :: body ++ [125%N]) ++ ws2 ++ fence) ++ o2)))
  = generateAsciiArt engineMessage JSON_parse apiKey topic
      (fun _ => ArtResolved (Some (123%N :: body ++ [125%N]))).
Proof.
  intros Ho1 Ho2 Htag Hws1 Hws2.
  rewrite !generateAsciiArt_once. destruct (negb (keyConfigured apiKey)); [reflexivity|].
  unfold artAttempt.
  rewrite stripFence_fenced by assumption. rewrite stripFence_bare. reflexivity.
Qed.

(** X15: [generateAsciiArt] returns art exactly when the key is configured
    and the first response has a text that, trimmed and taken out of its
    fence, starts with an opening and ends with a closing brace, parses,
    and has a string [art] that is not blank; the result is that string,
    with no [text].  In every other case it throws an [Error]: the fixed
    message for the missing key, or the message of the cause after
    "Could not generate ASCII art after 1 attempts: ".  Only one request is
    made. *)
Theorem generateAsciiArt_result (apiKey : option jsstring) (topic : jsstring)
    (respond : Z -> artOutcome) :
  (forall r,
      generateAsciiArt engineMessage JSON_parse apiKey topic respond = Ok r <->
      keyConfigured apiKey = true /\
      exists responseText parsedData a,
        respond 1 = ArtResolved (Some responseText) /\
        startsWith (stripFence (trim responseText)) (js "{") = true /\
        endsWith (stripFence (trim responseText)) (js "}") = true /\
        JSON_parse (stripFence (trim responseText)) = Some parsedData /\
        getProp parsedData (js "art") = Ok (Some (JString a)) /\
        trim a <> [] /\
        r = mkArt a None) /\
  ((exists r, generateAsciiArt engineMessage JSON_parse apiKey topic respond = Ok r) \/
   generateAsciiArt engineMessage JSON_parse apiKey topic respond
     = Throw (Error (js "API_KEY is not configured.")) \/
   (exists cause,
      generateAsciiArt engineMessage JSON_parse apiKey topic respond
      = Throw (Error (js "Could not generate ASCII art after 1 attempts: " ++ cause)))) /\
  (forall respond', respond' 1 = respond 1 ->
     generateAsciiArt engineMessage JSON_parse apiKey topic respond'
     = generateAsciiArt engineMessage JSON_parse apiKey topic respond).
Proof.
  split; [|split].
  - intros r. rewrite generateAsciiArt_once.
    destruct (keyConfigured apiKey); cbn [negb].
    2:{ split; [discriminate|]. intros [? _]. discriminate. }
    unfold artAttempt. split.
    + intros H. split; [reflexivity|].
      destruct (respond 1) as [reason|[responseText|]]; try discriminate.
      destruct (negb (startsWith _ _)) eqn:Hs; [discriminate|].
      destruct (negb (endsWith _ _)) eqn:He; [discriminate|]. cbn [orb] in H.
      destruct (JSON_parse _) as [parsedData|] eqn:Hp; [|discriminate].
      destruct (getProp parsedData (js "art")) as [[[| | |a| |]|]|e] eqn:Hg; try discriminate.
      destruct (Z.eqb_spec (jslength (trim a)) 0) as [|Hne]; [discriminate|].
      inversion H; subst r.
      exists responseText, parsedData, a.
      apply negb_false_iff in Hs, He. repeat split; auto.
      intros E. rewrite E in Hne. unfold jslength in Hne. simpl in Hne. lia.
    + intros (_ & responseText & parsedData & a & -> & Hs & He & Hp & Hg & Hne & ->).
      rewrite Hs, He, Hp, Hg. cbn [negb orb].
      destruct (Z.eqb_spec (jslength (trim a)) 0) as [E|]; [|reflexivity].
      exfalso. apply Hne. destruct (trim a); [reflexivity|].
      unfold jslength in E. simpl in E. lia.
  - rewrite generateAsciiArt_once.
    destruct (keyConfigured apiKey); cbn [negb]; [|right; left; reflexivity].
    destruct (artAttempt JSON_parse (respond 1)) as [r|thrown]; [left; eauto|].
    right. right. eauto.
  - intros respond' E. rewrite !generateAsciiArt_once, E. reflexivity.
Qed.

End AsciiArtTheorems.

Section StructuredAnswerMessages.

Variable engineMessage : exn -> jsstring.

(** X16: without a configured key [getStructuredAnswer] throws its fixed
    message whatever the backend would answer; with a key, everything it
    throws is an [Error] whose message is the topic in quotes after
    "Could not generate content for", followed by the message of the
    cause, which for a parsed object that fails the check is
    "Invalid response structure received from API.". *)
Theorem getStructuredAnswer_messages (apiKey : option jsstring) (topic : jsstring)
    (outcome : apiOutcome) :
  (keyConfigured apiKey = false ->
     getStructuredAnswer engineMessage apiKey topic outcome
     = Throw (Error (js "API_KEY is not configured. Please check your environment variables to continue."))) /\
  (keyConfigured apiKey = true ->
     forall e, getStructuredAnswer engineMessage apiKey topic outcome = Throw e ->
       exists cause,
         e = Error (js "Could not generate content for " ++ [34%N] ++ topic ++ [34%N]
                      ++ js ". " ++ cause) /\
         (forall members, outcome = Resolved (Parsed (JObject members)) ->
            cause = js "Invalid response structure received from API.")).
Proof.
  unfold getStructuredAnswer. fold (keyConfigured apiKey). split.
  - intros ->. reflexivity.
  - intros ->. cbn [negb]. intros e.
    destruct outcome as [[e0|]|r].
    + intros E. inversion E. eexists. split; [reflexivity|]. intros m Hm. discriminate.
    + intros E. inversion E. eexists. split; [reflexivity|]. intros m Hm. discriminate.
    + destruct (checkParsed r) as [v|e0] eqn:Hc; [discriminate|].
      intros E. inversion E. eexists. split; [reflexivity|].
      intros members Hm. inversion Hm; subst r. clear E Hm.
      unfold checkParsed, getProp in Hc.
      destruct (negb (truthyValue (member (js "explanation") members)));
        [inversion Hc; reflexivity|].
      destruct (negb (truthyValue (member (js "suggestion") members)));
        [inversion Hc; reflexivity|].
      destruct (negb (isArray (member (js "links") members)));
        [inversion Hc; reflexivity|discriminate].
Qed.

End StructuredAnswerMessages.

(** ** The fetch effect *)

Section FetchTheorems.

Variable number : Type.
Variable minus : number -> number -> number.
Variable engineMessage : exn -> jsstring.

Lemma fetchStep_olderCancelled (s : Fetching number) (ev : fetchEvent number) :
  olderCancelled s -> olderCancelled (fetchStep number minus engineMessage s ev).
Proof.
  intros Hinv. destruct ev as [currentTopic now|id outcome|id outcome endTime].
  - assert (Hall : forall id run, map (cleanup number) (runs number s) !! id = Some run ->
                                  isCancelled number run = true).
    { intros id run H. change (map (cleanup number) (runs number s))
        with (cleanup number <$> runs number s) in H.
      rewrite list_lookup_fmap in H. destruct (runs number s !! id); [|discriminate].
      inversion H. reflexivity. }
    unfold fetchStep.
    destruct (startFetch number (page number s) currentTopic now) as [page' [run|]].
    + intros id r Hr Hlt. cbn [runs] in *. rewrite length_app in Hlt. simpl in Hlt.
      rewrite lookup_app_l in Hr by lia. apply (Hall id r Hr).
    + intros id r Hr _. apply (Hall id r Hr).
  - unfold fetchStep. destruct (runs number s !! id); exact Hinv.
  - unfold fetchStep. destruct (runs number s !! id); exact Hinv.
Qed.

Lemma fetchRun_olderCancelled (events : list (fetchEvent number)) :
  olderCancelled (fetchRun number minus engineMessage events).
Proof.
  unfold fetchRun.
  assert (H : forall s, olderCancelled s ->
                        olderCancelled (foldl (fetchStep number minus engineMessage) s events)).
  { induction events as [|ev events IH]; intros s Hs; [exact Hs|].
    simpl. apply IH. apply fetchStep_olderCancelled. exact Hs. }
  apply H. intros id run Hrun. destruct id; discriminate.
Qed.

(** X17: whatever has happened so far, when a request of a run that is not
    the latest settles, with any outcome, nothing changes: a result for a
    topic that was left never reaches the page. *)
Theorem stale_results_discarded (events : list (fetchEvent number)) (id : nat) :
  (S id < length (runs number (fetchRun number minus engineMessage events)))%nat ->
  (forall outcome,
      fetchStep number minus engineMessage (fetchRun number minus engineMessage events)
        (ArtSettled number id outcome)
      = fetchRun number minus engineMessage events) /\
  (forall outcome endTime,
      fetchStep number minus engineMessage (fetchRun number minus engineMessage events)
        (AnswerSettled number id outcome endTime)
      = fetchRun number minus engineMessage events).
Proof.
  intros Hlt. pose proof (fetchRun_olderCancelled events) as Hinv.
  destruct (fetchRun number minus engineMessage events) as [p rs] eqn:Hs.
  cbn [runs] in *.
  destruct (lookup_lt_is_Some_2 rs id) as [run Hrun]; [lia|].
  assert (Hc : isCancelled number run = true) by (apply (Hinv id run Hrun); exact Hlt).
  split; intros; unfold fetchStep; cbn [runs page]; rewrite Hrun;
    unfold artSettled, answerSettled; rewrite Hc; reflexivity.
Qed.


Lemma getStructuredAnswer_message_nonempty (apiKey : option jsstring) (topic : jsstring)
    (outcome : apiOutcome) (e : exn) :
  getStructuredAnswer engineMessage apiKey topic outcome = Throw e ->
  exists message, e = Error message /\ truthy message = true.
Proof.
  unfold getStructuredAnswer. destruct (negb _).
  - intros E. inversion E. eexists. split; reflexivity.
  - change (js "Could not generate content for ")
      with (67%N :: js "ould not generate content for ").
    destruct outcome as [[e0|]|r].
    + intros E. inversion E. eexists. split; reflexivity.
    + intros E. inversion E. eexists. split; reflexivity.
    + destruct (checkParsed r); [discriminate|].
      intros E. inversion E. eexists. split; reflexivity.
Qed.

Lemma getStructuredAnswer_ok_accepted (apiKey : option jsstring) (topic : jsstring)
    (outcome : apiOutcome) (v : json) :
  getStructuredAnswer engineMessage apiKey topic outcome = Ok v -> accepted v = true.
Proof.
  unfold getStructuredAnswer. destruct (negb _); [discriminate|].
  destruct outcome as [[e0|]|r]; try discriminate.
  destruct (checkParsed r) as [v0|e0] eqn:Hc; [|discriminate].
  intros E. inversion E; subst v0.
  destruct r as [| |v1]; try discriminate.
  destruct (accepted v1) eqn:Hacc.
  - rewrite (checkParsed_accepted v1 Hacc) in Hc. congruence.
  - destruct (checkParsed_rejected (Parsed v1)) as [e He]; [|congruence].
    intros v2 E2. inversion E2; subst. exact Hacc.
Qed.

(** X19: a run of the effect whose answer settles while it is current ends
    the loading and records the time elapsed since its start, whether the
    answer succeeded or not.  When [getStructuredAnswer] returns, the page
    shows the content block, with the explanation, suggestion and links of
    the response; when it throws, the page shows the error box with the
    message thrown, and the explanation, suggestion and links are
    cleared. *)
Theorem answer_settles (page0 : Page number) (topic : jsstring) (start finish : number)
    (apiKey : option jsstring) (outcome : apiOutcome) :
  truthy topic = true ->
  exists run p0,
    startFetch number page0 (Some topic) start = (p0, Some run) /\
    let answer := getStructuredAnswer engineMessage apiKey topic outcome in
    let p := answerSettled number minus engineMessage run answer finish p0 in
    pageIsLoading number p = false /\
    pageGenerationTime number p = Some (minus finish start) /\
    (forall v, answer = Ok v ->
       exists members,
         v = JObject members /\
         pageExplanation number p = member (js "explanation") members /\
         pageSuggestion number p = member (js "suggestion") members /\
         pageLinks number p = member (js "links") members /\
         pageError number p = None /\
         showsContent number p = true /\ showsError number p = false /\
         showsSkeleton number p = false) /\
    (forall e, answer = Throw e ->
       pageError number p = Some (messageOf engineMessage e) /\
       pageExplanation number p = Some (JString []) /\
       pageSuggestion number p = Some (JString []) /\
       pageLinks number p = Some (JArray []) /\
       showsError number p = true /\ showsContent number p = false /\
       showsSkeleton number p = false).
Proof.
  intros Htopic. unfold startFetch. rewrite Htopic.
  eexists. eexists. split; [reflexivity|].
  cbv zeta. unfold answerSettled. cbn [isCancelled startTime].
  split; [reflexivity|]. split; [reflexivity|]. split.
  - intros v Hv. rewrite Hv.
    apply getStructuredAnswer_ok_accepted in Hv.
    destruct v as [| | | | |members]; try discriminate.
    unfold accepted in Hv. apply andb_true_iff in Hv as [Hv _].
    apply andb_true_iff in Hv as [He _].
    exists members. cbn [getProp pageExplanation pageSuggestion pageLinks pageError].
    unfold showsContent, showsError, showsSkeleton, errorTruthy.
    cbn [pageExplanation pageError pageIsLoading]. rewrite He. repeat split.
  - intros e He. rewrite He.
    destruct (getStructuredAnswer_message_nonempty _ _ _ _ He) as (message & -> & Hm).
    unfold answerFailed, showsContent, showsError, showsSkeleton, errorTruthy.
    cbn [pageExplanation pageSuggestion pageLinks pageError pageIsLoading messageOf].
    rewrite Hm. repeat split.
Qed.

(** X20: of the four blocks of the page (error box, skeleton, content,
    notice that nothing was generated) at most one is shown at a time, and
    none is shown only when nothing loads, there is no error, no
    explanation and no history. *)
Theorem page_blocks_exclusive (p : Page number) (history_ : list jsstring) :
  (showsError number p = true ->
     showsSkeleton number p = false /\ showsContent number p = false /\
     showsNoContent number p history_ = false) /\
  (showsSkeleton number p = true ->
     showsContent number p = false /\ showsNoContent number p history_ = false) /\
  (showsContent number p = true -> showsNoContent number p history_ = false) /\
  (showsError number p = false /\ showsSkeleton number p = false /\
   showsContent number p = false /\ showsNoContent number p history_ = false <->
     pageIsLoading number p = false /\ errorTruthy number p = false /\
     truthyValue (pageExplanation number p) = false /\ history_ = []).
Proof.
  unfold showsError, showsSkeleton, showsContent, showsNoContent.
  assert (Hh : (0 <? jslength history_) = false <-> history_ = []).
  { destruct history_; unfold jslength; simpl; split; intros H;
      reflexivity || discriminate. }
  destruct (pageIsLoading number p), (errorTruthy number p),
    (truthyValue (pageExplanation number p)); cbn [andb negb];
    repeat split; intros;
    repeat match goal with H : _ /\ _ |- _ => destruct H end;
    try reflexivity; try discriminate; apply Hh; assumption.
Qed.

End FetchTheorems.

Lemma stale_results_discarded_witness :
  fetchStep Z Z.sub (fun _ => js "engine")
    (fetchRun Z Z.sub (fun _ => js "engine")
       [TopicChanged Z (Some (js "Entropy")) 10; TopicChanged Z (Some (js "Chaos")) 25])
    (AnswerSettled Z 0 (Throw (Error (js "late"))) 40)
  = fetchRun Z Z.sub (fun _ => js "engine")
      [TopicChanged Z (Some (js "Entropy")) 10; TopicChanged Z (Some (js "Chaos")) 25].
Proof.
  apply (stale_results_discarded Z Z.sub (fun _ => js "engine")
           [TopicChanged Z (Some (js "Entropy")) 10; TopicChanged Z (Some (js "Chaos")) 25] 0).
  vm_compute. lia.
Defined.


Lemma answer_settles_witness :
  exists run p0,
    startFetch Z (initialPage Z) (Some (js "Entropy")) 10 = (p0, Some run) /\
    pageGenerationTime Z
      (answerSettled Z Z.sub (fun _ => js "engine") run
         (getStructuredAnswer (fun _ => js "engine") None (js "Entropy") (Resolved NoText))
         40 p0) = Some 30.
Proof.
  destruct (answer_settles Z Z.sub (fun _ => js "engine") (initialPage Z) (js "Entropy")
              10 40 None (Resolved NoText) eq_refl) as (run & p0 & Hstart & _ & Htime & _).
  exists run, p0. split; [exact Hstart|exact Htime].
Defined.

Lemma fenced_response_as_bare_witness :
  generateAsciiArt (fun _ => js "engine") parseSample (Some (js "key")) (js "Entropy")
    (fun _ => ArtResolved
       (Some ([] ++ (fence ++ js "json" ++ [10%N]
                       ++ (123%N :: ([34%N] ++ js "art" ++ [34%N] ++ js ":" ++ [34%N]
                                       ++ js "[]" ++ [34%N]) ++ [125%N])
                       ++ [10%N] ++ fence) ++ [])))
  = Ok (mkArt (js "[]") None).
Proof.
  etransitivity.
  - apply (fenced_response_as_bare (fun _ => js "engine") parseSample (Some (js "key"))
             (js "Entropy") [] [] (js "json") [10%N] [10%N]);
      try reflexivity. right. reflexivity.
  - vm_compute. reflexivity.
Defined.

Lemma getStructuredAnswer_messages_witness :
  getStructuredAnswer (fun _ => js "engine") None (js "Entropy") (Resolved NoText)
  = Throw (Error (js "API_KEY is not configured. Please check your environment variables to continue.")).
Proof.
  apply (getStructuredAnswer_messages (fun _ => js "engine") None (js "Entropy") (Resolved NoText)).
  reflexivity.
Defined.
